(** * DebtBook_Z: a confidential debt ledger over FHE handles

    Shallow embedding of the Solidity contract [DebtBook_Z] and the
    properties of its ledger logic: entry storage, the participant
    registry, homomorphic balance aggregation and the one-shot
    decryption commit.

    Storage is a record of the four state variables of the contract,
    extended with the event log and the access grants issued through the
    FHE library. Each external function is a computation in a state and
    revert monad whose result carries the state reached when the function
    stopped, so that "a revert leaves nothing half-written" is a property
    of the order of checks and writes in the code and not of the monad. *)

From Stdlib Require Import ZArith Lia Strings.Byte Strings.Ascii.
From stdpp Require Import gmap strings list fin_maps.

(** ** Value types *)

Definition bytes32 := Z.
Definition bytes := list byte.
(** [euint32] and [externalEuint32] are user-defined value types over
    [bytes32]: opaque handles. *)
Definition euint32 := bytes32.
Definition externalEuint32 := bytes32.

Record DebtEntry := mkDebtEntry {
  creditor : string;
  debtor : string;
  encryptedAmount : euint32;
  timestamp : Z;
  decryptedAmount : Z;
  isVerified : bool
}.

(** The value a Solidity mapping yields at a key never written. *)
Definition zero_entry : DebtEntry :=
  mkDebtEntry "" "" 0%Z 0%Z 0%Z false.

(** Events, each with the arguments of its [emit] statement (the chain log
    keeps an indexed string argument by its hash). *)
Inductive Event :=
| DebtRecorded (entryId creditor_ debtor_ : string)
| DecryptionVerified (entryId : string) (decryptedAmount_ : Z)
| NetBalanceUpdated (participantId : string) (encryptedNetBalance : euint32).

(** Grants issued through [FHE.allowThis] and [FHE.makePubliclyDecryptable]. *)
Inductive Grant :=
| AllowThis (h : euint32)
| PubliclyDecryptable (h : euint32).

Record Ledger := mkLedger {
  debtEntries : gmap string DebtEntry;
  netBalances : gmap string euint32;
  entryIds : list string;
  participantIds : list string;
  events : list Event;
  acl : list Grant
}.

Definition init : Ledger := mkLedger ∅ ∅ [] [] [] [].

(** Reading [debtEntries[entryId]] and [netBalances[participantId]]. *)
Definition entry_at (s : Ledger) (entryId : string) : DebtEntry :=
  default zero_entry (debtEntries s !! entryId).

Definition balance_at (s : Ledger) (participantId : string) : euint32 :=
  default 0%Z (netBalances s !! participantId).

(** ** Reverts and the transaction monad *)

Inductive Error :=
| DuplicateEntry      (* "Entry ID already exists" *)
| SelfDebt            (* "Creditor and debtor cannot be the same" *)
| InvalidCiphertext   (* FHE.fromExternal reverts, or "Invalid encrypted amount" *)
| NotFound            (* "Debt entry does not exist", "Participant not found" *)
| AlreadyVerified     (* "Debt already verified" *)
| InvalidProof        (* FHE.checkSignatures reverts *)
| AbiDecodeError.     (* abi.decode reverts *)

Inductive Outcome (A : Type) :=
| Ok (a : A)
| Revert (e : Error).
Arguments Ok {A} a.
Arguments Revert {A} e.

(** A computation returns its outcome together with the storage at the
    point where it stopped. *)
Definition Tx (A : Type) : Type := Ledger -> Outcome A * Ledger.

#[global] Instance Tx_ret : MRet Tx := fun A (a : A) s => (Ok a, s).

#[global] Instance Tx_bind : MBind Tx := fun A B (k : A -> Tx B) (m : Tx A) s =>
  match m s with
  | (Ok a, s') => k a s'
  | (Revert e, s') => (Revert e, s')
  end.

Definition require (cond : bool) (e : Error) : Tx unit :=
  fun s => if cond then (Ok tt, s) else (Revert e, s).

Definition sload {A} (f : Ledger -> A) : Tx A := fun s => (Ok (f s), s).

Definition sstore (f : Ledger -> Ledger) : Tx unit := fun s => (Ok tt, f s).

Definition emit (ev : Event) : Tx unit :=
  sstore (fun s => mkLedger (debtEntries s) (netBalances s) (entryIds s)
                            (participantIds s) (events s ++ [ev]) (acl s)).

(** Storage writes, one per assignment form of the contract. *)
Definition write_entry (entryId : string) (e : DebtEntry) : Tx unit :=
  sstore (fun s => mkLedger (<[entryId := e]> (debtEntries s)) (netBalances s)
                            (entryIds s) (participantIds s) (events s) (acl s)).

Definition write_balance (participantId : string) (b : euint32) : Tx unit :=
  sstore (fun s => mkLedger (debtEntries s) (<[participantId := b]> (netBalances s))
                            (entryIds s) (participantIds s) (events s) (acl s)).

Definition push_entryId (entryId : string) : Tx unit :=
  sstore (fun s => mkLedger (debtEntries s) (netBalances s) (entryIds s ++ [entryId])
                            (participantIds s) (events s) (acl s)).

Definition push_participantId (participantId : string) : Tx unit :=
  sstore (fun s => mkLedger (debtEntries s) (netBalances s) (entryIds s)
                            (participantIds s ++ [participantId]) (events s) (acl s)).

Definition grant (g : Grant) : Tx unit :=
  sstore (fun s => mkLedger (debtEntries s) (netBalances s) (entryIds s)
                            (participantIds s) (events s) (acl s ++ [g])).

(** ** ABI decoding of a [uint32]

    [abi.decode(data, (uint32))] reads the first 32-byte word, big endian,
    and reverts when fewer than 32 bytes are supplied or when the word does
    not fit 32 bits. *)
Definition be_value (bs : list byte) : Z :=
  fold_left (fun acc b => (acc * 256 + Z.of_N (Byte.to_N b))%Z) bs 0%Z.

Definition abi_decode_uint32 (data : bytes) : option Z :=
  if (length data <? 32)%nat then None
  else let v := be_value (take 32 data) in
       if (v <? 2 ^ 32)%Z then Some v else None.

(** ** A transparent instance of the external capabilities

    Used to run the contract on concrete inputs: the hash is an injective
    numbering of strings, a handle is accepted as it comes when the input
    proof is non-empty, a handle carries its cleartext in its low 32 bits
    under a tag at bit 32, and a decryption proof is accepted when the
    claimed word is the cleartext of the handle. *)
Fixpoint plain_keccak256 (a : string) : bytes32 :=
  match a with
  | EmptyString => 1%Z
  | String c rest => (256 * plain_keccak256 rest + Z.of_N (N_of_ascii c))%Z
  end.

Definition plain_fromExternal (h : externalEuint32) (inputProof : bytes)
    : option euint32 :=
  match inputProof with
  | [] => None
  | _ => Some h
  end.

Definition plain_zero : euint32 := (2 ^ 32)%Z.
Definition plain_add (a b : euint32) : euint32 := (2 ^ 32 + (a + b) mod 2 ^ 32)%Z.
Definition plain_sub (a b : euint32) : euint32 := (2 ^ 32 + (a - b) mod 2 ^ 32)%Z.

Definition plain_checkSignatures (cts : list bytes32) (cleartexts proof : bytes)
    : bool :=
  match cts with
  | [h] => (be_value (take 32 cleartexts) =? h mod 2 ^ 32)%Z
  | _ => false
  end.

(** The 32-byte word of a small number: 31 zero bytes and the number. *)
Definition word_of_byte (b : byte) : bytes := replicate 31 x00 ++ [b].

(** ** The contract *)

Section DebtBook.

(** The hash function and the FHE library are external to the contract;
    they are taken as given. [FHE_fromExternal] is [None] when the library
    reverts on the input proof, [FHE_checkSignatures] is [false] when it
    reverts on the decryption proof. *)
Variable keccak256 : string -> bytes32.
Variable FHE_fromExternal : externalEuint32 -> bytes -> option euint32.
Variable FHE_zero : euint32.
Variable FHE_add FHE_sub : euint32 -> euint32 -> euint32.
Variable FHE_checkSignatures : list bytes32 -> bytes -> bytes -> bool.

Definition FHE_isInitialized (v : euint32) : bool := negb (v =? 0)%Z.
Definition FHE_toBytes32 (v : euint32) : bytes32 := v.
Definition FHE_allowThis (v : euint32) : Tx unit := grant (AllowThis v).
Definition FHE_makePubliclyDecryptable (v : euint32) : Tx unit :=
  grant (PubliclyDecryptable v).

(** [abi.encodePacked] of a single string is the string's bytes. *)
Definition abi_encodePacked (a : string) : string := a.

Definition compareStrings (a b : string) : bool :=
  (keccak256 (abi_encodePacked a) =? keccak256 (abi_encodePacked b))%Z.

(** The loop of [_participantExists], over the array from index 0. *)
Fixpoint participantExists_from (ids : list string) (participantId : string) : bool :=
  match ids with
  | [] => false
  | x :: rest =>
      if compareStrings x participantId then true
      else participantExists_from rest participantId
  end.

Definition _participantExists (participantId : string) (s : Ledger) : bool :=
  participantExists_from (participantIds s) participantId.

Definition _updateParticipantList (participantId : string) : Tx unit :=
  ex ← sload (_participantExists participantId);
  if negb ex then push_participantId participantId else mret tt.

Definition recordDebt (entryId creditor_ debtor_ : string)
    (encryptedAmount_ : externalEuint32) (inputProof : bytes)
    (block_timestamp : Z) : Tx unit :=
  e ← sload (fun s => entry_at s entryId);
  require (String.length (creditor e) =? 0)%nat DuplicateEntry;;
  require (negb (compareStrings creditor_ debtor_)) SelfDebt;;
  match FHE_fromExternal encryptedAmount_ inputProof with
  | None => require false InvalidCiphertext
  | Some amount =>
      require (FHE_isInitialized amount) InvalidCiphertext;;
      write_entry entryId
           (mkDebtEntry creditor_ debtor_ amount block_timestamp 0%Z false);;
      stored ← sload (fun s => encryptedAmount (entry_at s entryId));
      FHE_allowThis stored;;
      stored' ← sload (fun s => encryptedAmount (entry_at s entryId));
      FHE_makePubliclyDecryptable stored';;
      _updateParticipantList creditor_;;
      _updateParticipantList debtor_;;
      push_entryId entryId;;
      emit (DebtRecorded entryId creditor_ debtor_)
  end.

Definition verifyDecryption (entryId : string)
    (abiEncodedClearAmount decryptionProof : bytes) : Tx unit :=
  e ← sload (fun s => entry_at s entryId);
  require (0 <? String.length (creditor e))%nat NotFound;;
  require (negb (isVerified e)) AlreadyVerified;;
  let cts := [FHE_toBytes32 (encryptedAmount e)] in
  require (FHE_checkSignatures cts abiEncodedClearAmount decryptionProof)
       InvalidProof;;
  match abi_decode_uint32 abiEncodedClearAmount with
  | None => require false AbiDecodeError
  | Some decodedAmount =>
      e1 ← sload (fun s => entry_at s entryId);
      write_entry entryId
           (mkDebtEntry (creditor e1) (debtor e1) (encryptedAmount e1)
                        (timestamp e1) decodedAmount (isVerified e1));;
      e2 ← sload (fun s => entry_at s entryId);
      write_entry entryId
           (mkDebtEntry (creditor e2) (debtor e2) (encryptedAmount e2)
                        (timestamp e2) (decryptedAmount e2) true);;
      emit (DecryptionVerified entryId decodedAmount)
  end.

(** One iteration of the loop of [computeNetBalance]: the two [if]
    statements in sequence, on the pair [(balance, firstEntry)]. *)
Definition net_step (participantId : string) (acc : euint32 * bool)
    (entry : DebtEntry) : euint32 * bool :=
  let '(balance, firstEntry) := acc in
  let '(balance, firstEntry) :=
    if compareStrings (creditor entry) participantId
    then ((if firstEntry then encryptedAmount entry
           else FHE_add balance (encryptedAmount entry)), false)
    else (balance, firstEntry) in
  if compareStrings (debtor entry) participantId
  then ((if firstEntry then FHE_sub FHE_zero (encryptedAmount entry)
         else FHE_sub balance (encryptedAmount entry)), false)
  else (balance, firstEntry).

Definition net_loop (participantId : string) (s : Ledger) : euint32 * bool :=
  fold_left (fun acc id => net_step participantId acc (entry_at s id))
            (entryIds s) (FHE_zero, true).

Definition computeNetBalance (participantId : string) : Tx unit :=
  ex ← sload (_participantExists participantId);
  require ex NotFound;;
  balance ← sload (fun s => fst (net_loop participantId s));
  write_balance participantId balance;;
  b1 ← sload (fun s => balance_at s participantId);
  FHE_allowThis b1;;
  b2 ← sload (fun s => balance_at s participantId);
  FHE_makePubliclyDecryptable b2;;
  emit (NetBalanceUpdated participantId balance).

(** Views. *)
Definition getDebtEntry (entryId : string) (s : Ledger)
    : Outcome (string * string * Z * bool * Z) :=
  if (0 <? String.length (creditor (entry_at s entryId)))%nat then
    let entry := entry_at s entryId in
    Ok (creditor entry, debtor entry, timestamp entry, isVerified entry,
        decryptedAmount entry)
  else Revert NotFound.

Definition getNetBalance (participantId : string) (s : Ledger) : Outcome euint32 :=
  if _participantExists participantId s then Ok (balance_at s participantId)
  else Revert NotFound.

Definition getAllEntryIds (s : Ledger) : list string := entryIds s.
Definition getAllParticipantIds (s : Ledger) : list string := participantIds s.

(** ** Transactions and reachable states *)

Inductive Call :=
| CallRecordDebt (entryId creditor_ debtor_ : string)
    (encryptedAmount_ : externalEuint32) (inputProof : bytes) (block_timestamp : Z)
| CallVerifyDecryption (entryId : string) (abiEncodedClearAmount decryptionProof : bytes)
| CallComputeNetBalance (participantId : string).

Definition exec (c : Call) : Tx unit :=
  match c with
  | CallRecordDebt i c d a p t => recordDebt i c d a p t
  | CallVerifyDecryption i a p => verifyDecryption i a p
  | CallComputeNetBalance p => computeNetBalance p
  end.

(** A transaction commits the storage of a call that returned and
    discards that of a call that reverted. *)
Definition transact (s : Ledger) (c : Call) : Ledger :=
  match exec c s with
  | (Ok _, s') => s'
  | (Revert _, _) => s
  end.

Definition run (s : Ledger) (calls : list Call) : Ledger :=
  fold_left transact calls s.

Inductive reachable : Ledger -> Prop :=
| reachable_init : reachable init
| reachable_step s c : reachable s -> reachable (transact s c).

(** ** Specification-side definitions *)

(** The participants an event names, creditor before debtor. *)
Definition parties (ev : Event) : list string :=
  match ev with
  | DebtRecorded _ c d => [c; d]
  | _ => []
  end.

(** Every appearance of a participant in a recorded entry, in the order
    in which the entries were recorded. *)
Definition appearances (evs : list Event) : list string :=
  flat_map parties evs.

(** A sequence reduced to the first occurrence of each of its elements. *)
Fixpoint first_seen (l : list string) : list string :=
  match l with
  | [] => []
  | x :: rest => x :: filter (fun y => y <> x) (first_seen rest)
  end.

(** The aggregation as the specification words it: the accumulator is
    absent until the first contribution; a creditor entry starts it at the
    entry's ciphertext or adds to it, a debtor entry starts it at
    [zero - ciphertext] or subtracts from it, any other entry is skipped. *)
Definition contribution (participantId : string) (acc : option euint32)
    (entry : DebtEntry) : option euint32 :=
  if decide (creditor entry = participantId) then
    Some (match acc with
          | None => encryptedAmount entry
          | Some a => FHE_add a (encryptedAmount entry)
          end)
  else if decide (debtor entry = participantId) then
    Some (match acc with
          | None => FHE_sub FHE_zero (encryptedAmount entry)
          | Some a => FHE_sub a (encryptedAmount entry)
          end)
  else acc.

Definition folded_balance (participantId : string) (s : Ledger) : option euint32 :=
  fold_left (contribution participantId) (map (entry_at s) (entryIds s)) None.

(** ** Storage after each successful call *)

Definition registered (ids : list string) (participantId : string) : list string :=
  if participantExists_from ids participantId then ids else ids ++ [participantId].

Definition recordDebt_post (entryId creditor_ debtor_ : string) (amount : euint32)
    (block_timestamp : Z) (s : Ledger) : Ledger :=
  mkLedger
    (<[entryId := mkDebtEntry creditor_ debtor_ amount block_timestamp 0%Z false]>
       (debtEntries s))
    (netBalances s)
    (entryIds s ++ [entryId])
    (registered (registered (participantIds s) creditor_) debtor_)
    (events s ++ [DebtRecorded entryId creditor_ debtor_])
    (acl s ++ [AllowThis amount; PubliclyDecryptable amount]).

Definition verifyDecryption_post (entryId : string) (decodedAmount : Z)
    (s : Ledger) : Ledger :=
  let e := entry_at s entryId in
  mkLedger
    (<[entryId := mkDebtEntry (creditor e) (debtor e) (encryptedAmount e)
                              (timestamp e) decodedAmount true]> (debtEntries s))
    (netBalances s) (entryIds s) (participantIds s)
    (events s ++ [DecryptionVerified entryId decodedAmount])
    (acl s).

Definition computeNetBalance_post (participantId : string) (balance : euint32)
    (s : Ledger) : Ledger :=
  mkLedger
    (debtEntries s)
    (<[participantId := balance]> (netBalances s))
    (entryIds s) (participantIds s)
    (events s ++ [NetBalanceUpdated participantId balance])
    (acl s ++ [AllowThis balance; PubliclyDecryptable balance]).

(** ** Unfolding the three calls *)

Lemma updateParticipantList_unfold p s :
  _updateParticipantList p s =
  (Ok tt, mkLedger (debtEntries s) (netBalances s) (entryIds s)
                   (registered (participantIds s) p) (events s) (acl s)).
Proof.
  unfold _updateParticipantList, registered, _participantExists.
  unfold mbind, Tx_bind, sload; simpl.
  destruct (participantExists_from (participantIds s) p); simpl;
    [destruct s|]; reflexivity.
Qed.

Lemma recordDebt_unfold i c d a p t s :
  recordDebt i c d a p t s =
  if negb (String.length (creditor (entry_at s i)) =? 0)%nat
  then (Revert DuplicateEntry, s)
  else if compareStrings c d then (Revert SelfDebt, s)
  else match FHE_fromExternal a p with
       | None => (Revert InvalidCiphertext, s)
       | Some amount =>
           if FHE_isInitialized amount
           then (Ok tt, recordDebt_post i c d amount t s)
           else (Revert InvalidCiphertext, s)
       end.
Proof.
  unfold recordDebt, mbind, Tx_bind, sload, require; simpl.
  destruct (String.length (creditor (entry_at s i)) =? 0)%nat; simpl; [|reflexivity].
  destruct (compareStrings c d); simpl; [reflexivity|].
  destruct (FHE_fromExternal a p) as [amount|]; simpl; [|reflexivity].
  destruct (FHE_isInitialized amount); simpl; [|reflexivity].
  unfold write_entry, FHE_allowThis, FHE_makePubliclyDecryptable, grant, sstore; simpl.
  rewrite !updateParticipantList_unfold; simpl.
  unfold recordDebt_post, entry_at; simpl.
  rewrite lookup_insert_eq; simpl.
  rewrite <- app_assoc. reflexivity.
Qed.

Lemma verifyDecryption_unfold i a p s :
  verifyDecryption i a p s =
  if negb (0 <? String.length (creditor (entry_at s i)))%nat
  then (Revert NotFound, s)
  else if isVerified (entry_at s i) then (Revert AlreadyVerified, s)
  else if negb (FHE_checkSignatures [encryptedAmount (entry_at s i)] a p)
  then (Revert InvalidProof, s)
  else match abi_decode_uint32 a with
       | None => (Revert AbiDecodeError, s)
       | Some v => (Ok tt, verifyDecryption_post i v s)
       end.
Proof.
  unfold verifyDecryption, mbind, Tx_bind, sload, require, FHE_toBytes32; simpl.
  destruct (0 <? String.length (creditor (entry_at s i)))%nat; simpl; [|reflexivity].
  destruct (isVerified (entry_at s i)); simpl; [reflexivity|].
  destruct (FHE_checkSignatures _ a p); simpl; [|reflexivity].
  destruct (abi_decode_uint32 a) as [v|]; simpl; [|reflexivity].
  unfold verifyDecryption_post, entry_at; simpl.
  rewrite !lookup_insert_eq; simpl.
  rewrite insert_insert_eq. reflexivity.
Qed.

Lemma computeNetBalance_unfold p s :
  computeNetBalance p s =
  if _participantExists p s
  then (Ok tt, computeNetBalance_post p (fst (net_loop p s)) s)
  else (Revert NotFound, s).
Proof.
  unfold computeNetBalance, mbind, Tx_bind, sload, require; simpl.
  destruct (_participantExists p s); simpl; [|reflexivity].
  unfold computeNetBalance_post, balance_at; simpl.
  rewrite lookup_insert_eq; simpl.
  rewrite <- app_assoc. reflexivity.
Qed.

(** The successful calls as a step relation on storage. *)
Inductive commits : Ledger -> Call -> Ledger -> Prop :=
| commits_record s i c d a p t amount :
    creditor (entry_at s i) = "" ->
    compareStrings c d = false ->
    FHE_fromExternal a p = Some amount ->
    amount <> 0%Z ->
    commits s (CallRecordDebt i c d a p t) (recordDebt_post i c d amount t s)
| commits_verify s i a p v :
    creditor (entry_at s i) <> "" ->
    isVerified (entry_at s i) = false ->
    FHE_checkSignatures [encryptedAmount (entry_at s i)] a p = true ->
    abi_decode_uint32 a = Some v ->
    commits s (CallVerifyDecryption i a p) (verifyDecryption_post i v s)
| commits_compute s p :
    _participantExists p s = true ->
    commits s (CallComputeNetBalance p)
            (computeNetBalance_post p (fst (net_loop p s)) s).

Lemma length_zero_empty (x : string) : (String.length x =? 0)%nat = true <-> x = "".
Proof.
  destruct x; simpl; split; intros H; try reflexivity; discriminate.
Qed.

Lemma length_pos_nonempty (x : string) : (0 <? String.length x)%nat = true <-> x <> "".
Proof.
  destruct x; simpl; split; intros H; try congruence; try discriminate.
  reflexivity.
Qed.

Lemma exec_ok_commits c s s' : exec c s = (Ok tt, s') <-> commits s c s'.
Proof.
  split.
  - destruct c as [i c d a p t|i a p|p]; simpl.
    + rewrite recordDebt_unfold.
      destruct (String.length (creditor (entry_at s i)) =? 0)%nat eqn:Hlen;
        simpl; [|discriminate].
      destruct (compareStrings c d) eqn:Hcmp; [discriminate|].
      destruct (FHE_fromExternal a p) as [amount|] eqn:Hext; [|discriminate].
      destruct (FHE_isInitialized amount) eqn:Hini; [|discriminate].
      intros [= <-]. constructor; auto.
      * by apply length_zero_empty.
      * unfold FHE_isInitialized in Hini. apply negb_true_iff in Hini.
        by apply Z.eqb_neq.
    + rewrite verifyDecryption_unfold.
      destruct (0 <? String.length (creditor (entry_at s i)))%nat eqn:Hlen;
        simpl; [|discriminate].
      destruct (isVerified (entry_at s i)) eqn:Hver; [discriminate|].
      destruct (FHE_checkSignatures _ a p) eqn:Hsig; simpl; [|discriminate].
      destruct (abi_decode_uint32 a) as [v|] eqn:Hdec; [|discriminate].
      intros [= <-]. constructor; auto.
      by apply length_pos_nonempty.
    + rewrite computeNetBalance_unfold.
      destruct (_participantExists p s) eqn:Hex; [|discriminate].
      intros [= <-]. by constructor.
  - intros H. destruct H as [s i c d a p t amount Hc Hcmp Hext Hne
                            |s i a p v Hc Hver Hsig Hdec|s p Hex]; simpl.
    + rewrite recordDebt_unfold, Hc, Hcmp, Hext. simpl.
      unfold FHE_isInitialized.
      apply Z.eqb_neq in Hne. by rewrite Hne.
    + rewrite verifyDecryption_unfold, Hver, Hsig, Hdec.
      apply length_pos_nonempty in Hc. by rewrite Hc.
    + by rewrite computeNetBalance_unfold, Hex.
Qed.

(** Every call either reverts with the storage it started from, or commits. *)
Lemma exec_cases c s :
  (exists e, exec c s = (Revert e, s)) \/ (exists s', exec c s = (Ok tt, s')).
Proof.
  destruct c as [i c d a p t|i a p|p]; simpl.
  - rewrite recordDebt_unfold.
    destruct (negb _); [eauto|]. destruct (compareStrings c d); [eauto|].
    destruct (FHE_fromExternal a p); [|eauto].
    destruct (FHE_isInitialized _); eauto.
  - rewrite verifyDecryption_unfold.
    destruct (negb _); [eauto|]. destruct (isVerified _); [eauto|].
    destruct (negb _); [eauto|]. destruct (abi_decode_uint32 a); eauto.
  - rewrite computeNetBalance_unfold.
    destruct (_participantExists p s); eauto.
Qed.

Lemma transact_cases s c : transact s c = s \/ commits s c (transact s c).
Proof.
  unfold transact.
  destruct (exec_cases c s) as [[e He]|[s' Hs']].
  - left. by rewrite He.
  - right. rewrite Hs'. by apply exec_ok_commits.
Qed.

(** Entries as read after each commit. *)
Lemma entry_at_record i c d amount t s j :
  entry_at (recordDebt_post i c d amount t s) j =
  if decide (i = j) then mkDebtEntry c d amount t 0%Z false else entry_at s j.
Proof.
  unfold entry_at, recordDebt_post; simpl.
  rewrite lookup_insert. by case_decide.
Qed.

Lemma entry_at_verify i v s j :
  entry_at (verifyDecryption_post i v s) j =
  if decide (i = j)
  then mkDebtEntry (creditor (entry_at s i)) (debtor (entry_at s i))
                   (encryptedAmount (entry_at s i)) (timestamp (entry_at s i)) v true
  else entry_at s j.
Proof.
  unfold verifyDecryption_post. unfold entry_at at 1; simpl.
  rewrite lookup_insert. by case_decide.
Qed.

Lemma entry_at_compute p b s j :
  entry_at (computeNetBalance_post p b s) j = entry_at s j.
Proof. reflexivity. Qed.

(** ** First-occurrence sequences *)

Lemma first_seen_elem (x : string) (l : list string) : x ∈ first_seen l <-> x ∈ l.
Proof.
  induction l as [|a l IH]; simpl; [done|].
  rewrite !elem_of_cons, list_elem_of_filter, IH.
  destruct (decide (x = a)); tauto.
Qed.

Lemma first_seen_NoDup (l : list string) : NoDup (first_seen l).
Proof.
  induction l as [|a l IH]; simpl; [constructor|].
  constructor.
  - rewrite list_elem_of_filter. intros [Hne _]. by apply Hne.
  - by apply NoDup_filter.
Qed.

Lemma first_seen_snoc (l : list string) (x : string) :
  first_seen (l ++ [x]) = if decide (x ∈ l) then first_seen l else first_seen l ++ [x].
Proof.
  induction l as [|a l IH]; simpl; [done|].
  rewrite IH.
  destruct (decide (x ∈ l)) as [Hin|Hnin].
  - rewrite decide_True by (by right). done.
  - rewrite filter_app. simpl.
    destruct (decide (x = a)) as [->|Hne].
    + rewrite decide_True by (by left).
      rewrite filter_cons_False by (intros Hne; by apply Hne).
      by rewrite filter_nil, app_nil_r.
    + rewrite decide_False by (rewrite elem_of_cons; tauto).
      rewrite filter_cons_True by done.
      by rewrite filter_nil.
Qed.

Lemma appearances_snoc (evs : list Event) (ev : Event) :
  appearances (evs ++ [ev]) = appearances evs ++ parties ev.
Proof.
  unfold appearances. rewrite flat_map_app. simpl. by rewrite app_nil_r.
Qed.

(** ** Hash comparison *)

Lemma compareStrings_refl a : compareStrings a a = true.
Proof. unfold compareStrings. apply Z.eqb_refl. Qed.

Lemma compareStrings_false_ne a b : compareStrings a b = false -> a <> b.
Proof. intros H ->. by rewrite compareStrings_refl in H. Qed.

(** The three guards of a net-balance iteration cannot both fire on an
    entry whose two parties hash differently. *)
Lemma compareStrings_exclusive a b p :
  compareStrings a b = false -> compareStrings a p = true ->
  compareStrings b p = false.
Proof.
  unfold compareStrings. rewrite !Z.eqb_neq, Z.eqb_eq. congruence.
Qed.

(** From here on [keccak256] is taken to be free of collisions. *)
Hypothesis keccak256_inj : forall a b : string, keccak256 a = keccak256 b -> a = b.

Lemma compareStrings_decide a b : compareStrings a b = bool_decide (a = b).
Proof.
  unfold compareStrings, abi_encodePacked.
  case_bool_decide as H.
  - subst. apply Z.eqb_refl.
  - apply Z.eqb_neq. intros Heq. by apply H, keccak256_inj.
Qed.

Lemma participantExists_from_elem ids p :
  participantExists_from ids p = bool_decide (p ∈ ids).
Proof.
  induction ids as [|x ids IH]; simpl; [done|].
  rewrite compareStrings_decide, IH.
  destruct (decide (x = p)) as [->|Hne].
  - rewrite bool_decide_eq_true_2 by done.
    symmetry. apply bool_decide_eq_true_2. by left.
  - rewrite (bool_decide_eq_false_2 _ Hne).
    apply bool_decide_ext. rewrite elem_of_cons.
    split; [tauto|intros [Heq|Hin]; [congruence|done]].
Qed.

Lemma registered_decide ids p :
  registered ids p = if decide (p ∈ ids) then ids else ids ++ [p].
Proof.
  unfold registered. rewrite participantExists_from_elem.
  case_bool_decide; by case_decide.
Qed.

Lemma registered_first_seen l p :
  registered (first_seen l) p = first_seen (l ++ [p]).
Proof.
  rewrite registered_decide, first_seen_snoc.
  destruct (decide (p ∈ l)) as [Hin|Hnin].
  - rewrite decide_True; [done|]. by apply first_seen_elem.
  - rewrite decide_False; [done|]. by rewrite first_seen_elem.
Qed.

(** ** The invariants of reachable storage *)

(** Logged entries have parties with different hashes, and a verified
    entry has a non-empty creditor. *)
Record invariant (s : Ledger) : Prop := mkInvariant {
  inv_distinct : forall i, i ∈ entryIds s ->
    compareStrings (creditor (entry_at s i)) (debtor (entry_at s i)) = false;
  inv_verified : forall i, isVerified (entry_at s i) = true ->
    creditor (entry_at s i) <> ""
}.

(** The registry is the first-occurrence sequence of the parties named by
    the DebtRecorded events. *)
Definition registry_invariant (s : Ledger) : Prop :=
  participantIds s = first_seen (appearances (events s)).

Lemma invariant_init : invariant init.
Proof. split; [intros i Hi; inversion Hi|intros i; discriminate]. Qed.

Lemma invariant_commits s c s' : invariant s -> commits s c s' -> invariant s'.
Proof.
  intros [Hd Hv] Hstep.
  destruct Hstep as [s i c d a p t amount Hc Hcmp Hext Hne
                    |s i a p v Hc Hver Hsig Hdec|s p Hex].
  - split.
    + intros j Hj. rewrite entry_at_record.
      case_decide; [done|].
      simpl in Hj. apply elem_of_app in Hj as [Hj|Hj]; [by apply Hd|].
      apply list_elem_of_singleton in Hj. congruence.
    + intros j. rewrite entry_at_record.
      case_decide; [discriminate|apply Hv].
  - split.
    + intros j Hj. rewrite entry_at_verify.
      case_decide; simpl; [subst; by apply Hd|by apply Hd].
    + intros j. rewrite entry_at_verify.
      case_decide; simpl; [done|apply Hv].
  - split; [exact Hd|exact Hv].
Qed.

Lemma registry_commits s c s' :
  registry_invariant s -> commits s c s' -> registry_invariant s'.
Proof.
  unfold registry_invariant. intros Hr Hstep.
  destruct Hstep as [s i c d a p t amount _ _ _ _|s i a p v _ _ _ _|s p _]; simpl.
  - rewrite Hr, appearances_snoc. simpl.
    rewrite !registered_first_seen.
    by rewrite <- app_assoc.
  - by rewrite Hr, appearances_snoc, app_nil_r.
  - by rewrite Hr, appearances_snoc, app_nil_r.
Qed.

Lemma reachable_registry s : reachable s -> registry_invariant s.
Proof.
  induction 1 as [|s c _ IH]; [reflexivity|].
  destruct (transact_cases s c) as [->|Hstep]; [done|].
  by eapply registry_commits.
Qed.

Lemma invariant_transact s c : invariant s -> invariant (transact s c).
Proof.
  intros Hinv. destruct (transact_cases s c) as [->|Hstep]; [done|].
  by eapply invariant_commits.
Qed.

Lemma reachable_invariant s : reachable s -> invariant s.
Proof.
  induction 1 as [|s c _ IH]; [apply invariant_init|by apply invariant_transact].
Qed.

Lemma reachable_run s calls : reachable s -> reachable (run s calls).
Proof.
  revert s. induction calls as [|c calls IH]; intros s Hs; simpl; [done|].
  apply IH. by constructor.
Qed.

(** ** The loop of [computeNetBalance] against the specification's fold *)

(** The accumulator of the specification read off the loop variables. *)
Definition loop_acc (x : euint32 * bool) : option euint32 :=
  if snd x then None else Some (fst x).

Lemma net_step_contribution p x e :
  compareStrings (creditor e) (debtor e) = false ->
  loop_acc (net_step p x e) = contribution p (loop_acc x) e.
Proof.
  intros Hne. destruct x as [b first]. unfold net_step, contribution, loop_acc.
  rewrite !compareStrings_decide.
  rewrite compareStrings_decide in Hne. apply bool_decide_eq_false in Hne.
  destruct (decide (creditor e = p)) as [Hc|Hc].
  - rewrite (bool_decide_eq_true_2 _ Hc).
    rewrite bool_decide_eq_false_2 by congruence.
    by destruct first.
  - rewrite (bool_decide_eq_false_2 _ Hc).
    destruct (decide (debtor e = p)) as [Hd|Hd].
    + rewrite (bool_decide_eq_true_2 _ Hd). by destruct first.
    + rewrite (bool_decide_eq_false_2 _ Hd). by destruct first.
Qed.

Lemma net_step_first p x e :
  (snd x = true -> fst x = FHE_zero) ->
  snd (net_step p x e) = true -> fst (net_step p x e) = FHE_zero.
Proof.
  destruct x as [b first]. unfold net_step. simpl.
  destruct (compareStrings (creditor e) p), (compareStrings (debtor e) p);
    simpl; try discriminate; auto.
Qed.

Lemma net_fold_contribution p (l : list DebtEntry) x :
  Forall (fun e => compareStrings (creditor e) (debtor e) = false) l ->
  (snd x = true -> fst x = FHE_zero) ->
  let y := fold_left (net_step p) l x in
  loop_acc y = fold_left (contribution p) l (loop_acc x) /\
  (snd y = true -> fst y = FHE_zero).
Proof.
  intros Hl. revert x. induction Hl as [|e l He Hl IH]; intros x Hx; simpl; [done|].
  rewrite <- (net_step_contribution p x e He).
  apply IH. by apply net_step_first.
Qed.

Lemma net_loop_map p s :
  net_loop p s = fold_left (net_step p) (map (entry_at s) (entryIds s)) (FHE_zero, true).
Proof.
  unfold net_loop. generalize (FHE_zero, true). 
  induction (entryIds s) as [|i l IH]; intros x; simpl; [done|apply IH].
Qed.

Lemma net_loop_folded p s :
  invariant s -> fst (net_loop p s) = default FHE_zero (folded_balance p s).
Proof.
  intros Hinv. rewrite net_loop_map. unfold folded_balance.
  destruct (net_fold_contribution p (map (entry_at s) (entryIds s)) (FHE_zero, true))
    as [Hacc Hzero]; [|done|].
  - apply Forall_map, Forall_forall. intros i Hi. by apply (inv_distinct s Hinv).
  - simpl in Hacc. unfold loop_acc in Hacc at 2. simpl in Hacc. rewrite <- Hacc.
    unfold loop_acc.
    destruct (snd (fold_left _ _ _)) eqn:Hsnd; simpl; [by apply Hzero|done].
Qed.

(** ** Supporting facts about single calls *)

Lemma participantExists_appearances s p :
  registry_invariant s ->
  _participantExists p s = bool_decide (p ∈ appearances (events s)).
Proof.
  intros Hreg. unfold _participantExists.
  rewrite participantExists_from_elem, Hreg.
  apply bool_decide_ext, first_seen_elem.
Qed.

(** An entry already verified is untouched by any further call. *)
Lemma verified_entry_kept s c i :
  invariant s -> isVerified (entry_at s i) = true ->
  entry_at (transact s c) i = entry_at s i.
Proof.
  intros Hinv Hver. destruct (transact_cases s c) as [->|Hstep]; [done|].
  pose proof (inv_verified s Hinv i Hver) as Hc.
  destruct Hstep as [s j c d a p t amount Hcj _ _ _|s j a p v _ Hvj _ _|s p _].
  - rewrite entry_at_record. case_decide; [subst; congruence|done].
  - rewrite entry_at_verify. case_decide; [subst; congruence|done].
  - apply entry_at_compute.
Qed.

Lemma verified_entry_kept_run s calls i :
  invariant s -> isVerified (entry_at s i) = true ->
  entry_at (run s calls) i = entry_at s i.
Proof.
  unfold run. revert s.
  induction calls as [|c calls IH]; intros s Hinv Hver; simpl; [done|].
  pose proof (verified_entry_kept s c i Hinv Hver) as Hkept.
  rewrite IH; [done|by apply invariant_transact|by rewrite Hkept].
Qed.

Lemma verified_forever s i calls :
  invariant s -> isVerified (entry_at s i) = true ->
  let s' := run s calls in
  isVerified (entry_at s' i) = true /\
  decryptedAmount (entry_at s' i) = decryptedAmount (entry_at s i) /\
  forall a p, verifyDecryption i a p s' = (Revert AlreadyVerified, s').
Proof.
  intros Hinv Hver. simpl.
  pose proof (verified_entry_kept_run s calls i Hinv Hver) as Hkept.
  rewrite Hkept. repeat split; [done|].
  intros a p. rewrite verifyDecryption_unfold, Hkept, Hver.
  pose proof (inv_verified s Hinv i Hver) as Hc.
  apply length_pos_nonempty in Hc. by rewrite Hc.
Qed.

(** An entry stored with a non-empty creditor keeps its identity fields
    through every call, and a further [recordDebt] on its id is refused. *)
Lemma named_entry_frozen s c i :
  creditor (entry_at s i) <> "" ->
  let e := entry_at s i in
  let e' := entry_at (transact s c) i in
  creditor e' = creditor e /\ debtor e' = debtor e /\
  encryptedAmount e' = encryptedAmount e /\ timestamp e' = timestamp e.
Proof.
  intros Hc. simpl. destruct (transact_cases s c) as [->|Hstep]; [done|].
  destruct Hstep as [s j c d a p t amount Hcj _ _ _|s j a p v _ _ _ _|s p _].
  - rewrite entry_at_record. case_decide; [subst; congruence|done].
  - rewrite entry_at_verify. case_decide; [subst|]; done.
  - by rewrite entry_at_compute.
Qed.

Lemma recordDebt_duplicate s i c d a p t :
  creditor (entry_at s i) <> "" ->
  recordDebt i c d a p t s = (Revert DuplicateEntry, s).
Proof.
  intros Hc. rewrite recordDebt_unfold.
  apply length_pos_nonempty in Hc.
  destruct (creditor (entry_at s i)); [discriminate|done].
Qed.

(** The two id sequences only grow. *)
Lemma sequences_grow s c :
  entryIds s `prefix_of` entryIds (transact s c) /\
  participantIds s `prefix_of` participantIds (transact s c).
Proof.
  destruct (transact_cases s c) as [->|Hstep]; [done|].
  destruct Hstep as [s i c d a p t amount _ _ _ _|s i a p v _ _ _ _|s p _];
    simpl; try done.
  split; [by apply prefix_app_r|].
  unfold registered.
  destruct (participantExists_from (participantIds s) c).
  - destruct (participantExists_from (participantIds s) d);
      [done|by apply prefix_app_r].
  - destruct (participantExists_from (participantIds s ++ [c]) d).
    + by apply prefix_app_r.
    + rewrite <- app_assoc. by apply prefix_app_r.
Qed.

(** What [getDebtEntry] returns for an entry recorded with a non-empty
    creditor: the five fields, without the ciphertext handle. *)
Lemma getDebtEntry_after_record s i c d amount t :
  c <> "" ->
  getDebtEntry i (recordDebt_post i c d amount t s) = Ok (c, d, t, false, 0%Z).
Proof.
  intros Hc. unfold getDebtEntry. rewrite entry_at_record.
  rewrite decide_True by done. simpl.
  apply length_pos_nonempty in Hc. by rewrite Hc.
Qed.

(** The aggregation reads the entry table and the entry log only. *)
Lemma net_loop_frame p s s' :
  debtEntries s' = debtEntries s -> entryIds s' = entryIds s ->
  net_loop p s' = net_loop p s.
Proof.
  intros He Hl. unfold net_loop, entry_at. by rewrite Hl, He.
Qed.

(** ** Properties of the ledger *)

(** C1. In a reachable ledger, [computeNetBalance p] reverts with NotFound
    when [p] was never the creditor or debtor of a recorded entry;
    otherwise it returns, having stored as the balance of [p] the result of
    one left-to-right pass over the entry log that starts the accumulator
    at the first contribution (the ciphertext itself for a creditor entry,
    [zero - ciphertext] for a debtor entry), adds creditor entries,
    subtracts debtor entries and skips the others, and having emitted
    NetBalanceUpdated with that balance. Nothing else in storage changes,
    apart from the two access grants on the new balance. *)
Theorem computeNetBalance_folds_log s p :
  reachable s ->
  (p ∉ appearances (events s) -> computeNetBalance p s = (Revert NotFound, s)) /\
  (p ∈ appearances (events s) ->
   let balance := default FHE_zero (folded_balance p s) in
   computeNetBalance p s =
   (Ok tt,
    mkLedger (debtEntries s) (<[p := balance]> (netBalances s))
             (entryIds s) (participantIds s)
             (events s ++ [NetBalanceUpdated p balance])
             (acl s ++ [AllowThis balance; PubliclyDecryptable balance]))).
Proof.
  intros Hs. pose proof (reachable_registry s Hs) as Hreg.
  apply reachable_invariant in Hs.
  rewrite computeNetBalance_unfold, (participantExists_appearances s p Hreg).
  split; intros Hp.
  - by rewrite bool_decide_eq_false_2.
  - rewrite bool_decide_eq_true_2 by done. simpl.
    by rewrite (net_loop_folded p s Hs).
Qed.

(** C2. In a reachable ledger, a [verifyDecryption] that returns stores
    the decoded amount, and after any further sequence of calls the entry
    is still verified with that amount and every [verifyDecryption] on it
    reverts with AlreadyVerified, changing nothing; the same holds from any
    reachable ledger in which the entry is already verified. *)
Theorem verification_is_final s i :
  reachable s ->
  (forall a p s1, verifyDecryption i a p s = (Ok tt, s1) ->
     abi_decode_uint32 a = Some (decryptedAmount (entry_at s1 i)) /\
     forall calls,
       let s' := run s1 calls in
       isVerified (entry_at s' i) = true /\
       decryptedAmount (entry_at s' i) = decryptedAmount (entry_at s1 i) /\
       forall a' p', verifyDecryption i a' p' s' = (Revert AlreadyVerified, s')) /\
  (isVerified (entry_at s i) = true ->
   forall calls,
     let s' := run s calls in
     isVerified (entry_at s' i) = true /\
     decryptedAmount (entry_at s' i) = decryptedAmount (entry_at s i) /\
     forall a p, verifyDecryption i a p s' = (Revert AlreadyVerified, s')).
Proof.
  intros Hs. pose proof (reachable_invariant s Hs) as Hinv. split.
  - intros a p s1 Hok.
    apply (exec_ok_commits (CallVerifyDecryption i a p)) in Hok.
    pose proof (invariant_commits _ _ _ Hinv Hok) as Hinv1.
    inversion Hok as [|s0 i0 a0 p0 v Hc Hver Hsig Hdec|]; subst.
    assert (He : entry_at (verifyDecryption_post i v s) i =
                 mkDebtEntry (creditor (entry_at s i)) (debtor (entry_at s i))
                   (encryptedAmount (entry_at s i)) (timestamp (entry_at s i)) v true).
    { rewrite entry_at_verify. by rewrite decide_True. }
    split; [by rewrite He|].
    intros calls. apply verified_forever; [done|by rewrite He].
  - intros Hver calls. by apply verified_forever.
Qed.

(** C4. Whatever the storage and the arguments, a call of [recordDebt],
    [verifyDecryption] or [computeNetBalance] that reverts has written
    nothing by the time it stops: entry table, balance table, both id
    sequences, emitted events and grants are those it started with. *)
Theorem revert_writes_nothing c s e s' :
  exec c s = (Revert e, s') -> s' = s.
Proof.
  intros Hrev. destruct (exec_cases c s) as [[e0 He]|[s0 Hs0]]; congruence.
Qed.

(** C6 (as amended). A [recordDebt] whose creditor and debtor are the same
    string always reverts and writes nothing; the reason is SelfDebt when
    the stored creditor at the entry id is empty, and DuplicateEntry when
    it is not, the id check coming first. *)
Theorem recordDebt_same_party_reverts s i c a p t :
  recordDebt i c c a p t s =
  (Revert (if (String.length (creditor (entry_at s i)) =? 0)%nat
           then SelfDebt else DuplicateEntry), s).
Proof.
  rewrite recordDebt_unfold, compareStrings_refl.
  by destruct (String.length (creditor (entry_at s i)) =? 0)%nat.
Qed.

(** C8. In a reachable ledger, [getAllParticipantIds] has no duplicates
    and is the sequence of first occurrences of the creditor-then-debtor
    appearances of the recorded entries; starting from the empty ledger,
    recording e1 (alice, bob) and then e2 (bob, carol) yields
    alice, bob, carol. *)
Theorem participants_in_first_seen_order s :
  reachable s ->
  NoDup (getAllParticipantIds s) /\
  getAllParticipantIds s = first_seen (appearances (events s)) /\
  (forall a1 p1 t1 a2 p2 t2 s1 s2,
     recordDebt "e1" "alice" "bob" a1 p1 t1 init = (Ok tt, s1) ->
     recordDebt "e2" "bob" "carol" a2 p2 t2 s1 = (Ok tt, s2) ->
     getAllParticipantIds s2 = ["alice"; "bob"; "carol"]).
Proof.
  intros Hs. pose proof (reachable_registry s Hs) as Hreg.
  unfold getAllParticipantIds.
  split; [rewrite Hreg; apply first_seen_NoDup|].
  split; [exact Hreg|].
  intros a1 p1 t1 a2 p2 t2 s1 s2 H1 H2.
  apply (exec_ok_commits (CallRecordDebt "e1" "alice" "bob" a1 p1 t1)) in H1.
  apply (exec_ok_commits (CallRecordDebt "e2" "bob" "carol" a2 p2 t2)) in H2.
  assert (Hreg1 : registry_invariant s1)
    by exact (registry_commits init _ s1 eq_refl H1).
  assert (Hreg2 : registry_invariant s2)
    by exact (registry_commits s1 _ s2 Hreg1 H2).
  rewrite Hreg2.
  inversion H2; subst. inversion H1; subst. reflexivity.
Qed.

(** C9. When [computeNetBalance p] returns, calling it again on the
    resulting storage returns as well and stores the same balance handle
    for [p]: the balance table at [p], the value [getNetBalance] returns
    and the value carried by the NetBalanceUpdated event are unchanged. *)
Theorem computeNetBalance_twice s p s1 :
  computeNetBalance p s = (Ok tt, s1) ->
  exists s2,
    computeNetBalance p s1 = (Ok tt, s2) /\
    netBalances s2 !! p = netBalances s1 !! p /\
    getNetBalance p s2 = getNetBalance p s1 /\
    last (events s2) = last (events s1).
Proof.
  intros Hok.
  apply (exec_ok_commits (CallComputeNetBalance p)) in Hok.
  inversion Hok as [| |s0 p0 Hex]; subst.
  set (b := fst (net_loop p s)).
  set (s1 := computeNetBalance_post p b s).
  assert (Hb : fst (net_loop p s1) = b) by (by rewrite (net_loop_frame p s s1)).
  assert (Hex1 : _participantExists p s1 = true) by exact Hex.
  exists (computeNetBalance_post p b s1).
  split; [by rewrite computeNetBalance_unfold, Hex1, Hb|].
  split; [simpl; by rewrite !lookup_insert_eq|].
  split.
  - unfold getNetBalance, balance_at. simpl.
    change (_participantExists p (computeNetBalance_post p b s1))
      with (_participantExists p s1).
    by rewrite !lookup_insert_eq.
  - simpl. by rewrite !last_snoc.
Qed.

(** C10. Existence of an entry is read off the stored creditor being
    non-empty. A [recordDebt] with the empty string as creditor and a
    distinct debtor, on an id whose stored creditor is empty and with a
    ciphertext the library accepts, returns and appends its id to the
    entry log; after it [getDebtEntry] and [verifyDecryption] on that id
    revert with NotFound; and a further [recordDebt] on the same id never
    reverts with DuplicateEntry: with distinct parties and an accepted
    ciphertext it returns, replaces the stored entry and appends the id to
    the log a second time. *)
Theorem empty_creditor_entry_not_found s i d a p t amount :
  creditor (entry_at s i) = "" ->
  d <> "" ->
  FHE_fromExternal a p = Some amount ->
  amount <> 0%Z ->
  exists s1,
    recordDebt i "" d a p t s = (Ok tt, s1) /\
    entryIds s1 = entryIds s ++ [i] /\
    getDebtEntry i s1 = Revert NotFound /\
    (forall a' p', verifyDecryption i a' p' s1 = (Revert NotFound, s1)) /\
    (forall c2 d2 a2 p2 t2,
       fst (recordDebt i c2 d2 a2 p2 t2 s1) <> Revert DuplicateEntry) /\
    (forall c2 d2 a2 p2 t2 amount2,
       c2 <> d2 -> FHE_fromExternal a2 p2 = Some amount2 -> amount2 <> 0%Z ->
       exists s2,
         recordDebt i c2 d2 a2 p2 t2 s1 = (Ok tt, s2) /\
         entry_at s2 i = mkDebtEntry c2 d2 amount2 t2 0%Z false /\
         entryIds s2 = entryIds s ++ [i; i]).
Proof.
  intros Hc Hd Hext Hne.
  assert (Hcmp : forall x y, x <> y -> compareStrings x y = false).
  { intros x y Hxy. rewrite compareStrings_decide. by apply bool_decide_eq_false_2. }
  exists (recordDebt_post i "" d amount t s).
  assert (He1 : entry_at (recordDebt_post i "" d amount t s) i =
                mkDebtEntry "" d amount t 0%Z false).
  { rewrite entry_at_record. by rewrite decide_True. }
  split.
  { apply (exec_ok_commits (CallRecordDebt i "" d a p t)).
    constructor; auto. }
  split; [done|].
  split; [unfold getDebtEntry; by rewrite He1|].
  split; [intros a' p'; by rewrite verifyDecryption_unfold, He1|].
  split.
  - intros c2 d2 a2 p2 t2. rewrite recordDebt_unfold, He1. simpl.
    destruct (compareStrings c2 d2); [done|].
    destruct (FHE_fromExternal a2 p2) as [am|]; [|done].
    by destruct (FHE_isInitialized am).
  - intros c2 d2 a2 p2 t2 amount2 Hcd Hext2 Hne2.
    exists (recordDebt_post i c2 d2 amount2 t2 (recordDebt_post i "" d amount t s)).
    split.
    { apply (exec_ok_commits (CallRecordDebt i c2 d2 a2 p2 t2)).
      constructor; auto. by rewrite He1. }
    split; [rewrite entry_at_record; by rewrite decide_True|].
    simpl. by rewrite <- app_assoc.
Qed.

(** ** Further invariants of reachable storage *)

(** Induction over the committed calls that lead to a reachable ledger. *)
Lemma reachable_commits_ind (P : Ledger -> Prop) :
  P init ->
  (forall s c s', reachable s -> P s -> commits s c s' -> P s') ->
  forall s, reachable s -> P s.
Proof.
  intros Hinit Hstep s Hs. induction Hs as [|s c Hs IH]; [done|].
  destruct (transact_cases s c) as [->|Hc]; [done|].
  by eapply Hstep.
Qed.

(** The ids an event log records, in order. *)
Definition recorded_ids (evs : list Event) : list string :=
  flat_map (fun ev => match ev with DebtRecorded i _ _ => [i] | _ => [] end) evs.

(** The balance the latest NetBalanceUpdated event carries for a participant. *)
Definition last_balance (participantId : string) (evs : list Event) : option euint32 :=
  fold_left (fun acc ev =>
               match ev with
               | NetBalanceUpdated q b => if decide (q = participantId) then Some b else acc
               | _ => acc
               end) evs None.

(** The amounts the DecryptionVerified events carry for an entry id. *)
Definition verified_amounts (entryId : string) (evs : list Event) : list Z :=
  flat_map (fun ev => match ev with
                      | DecryptionVerified i v => if decide (i = entryId) then [v] else []
                      | _ => []
                      end) evs.

Lemma participantExists_from_snoc ids q p :
  participantExists_from (ids ++ [q]) p =
  participantExists_from ids p || compareStrings q p.
Proof.
  induction ids as [|x ids IH]; simpl.
  - by destruct (compareStrings q p).
  - by destruct (compareStrings x p).
Qed.

Lemma registered_exists_self ids p :
  participantExists_from (registered ids p) p = true.
Proof.
  unfold registered.
  destruct (participantExists_from ids p) eqn:Hex; [done|].
  by rewrite participantExists_from_snoc, compareStrings_refl, orb_true_r.
Qed.

Lemma registered_exists_mono ids q p :
  participantExists_from ids p = true ->
  participantExists_from (registered ids q) p = true.
Proof.
  intros Hex. unfold registered.
  destruct (participantExists_from ids q); [done|].
  by rewrite participantExists_from_snoc, Hex.
Qed.

Lemma participantExists_commits s c s' p :
  commits s c s' -> _participantExists p s = true -> _participantExists p s' = true.
Proof.
  unfold _participantExists.
  intros [s0 i cr d a pf t amount _ _ _ _|s0 i a pf v _ _ _ _|s0 q _]; simpl; auto.
  intros Hex. by do 2 apply registered_exists_mono.
Qed.

(** The entry log against the event log, and the entry table against the
    entry log. *)
Lemma reachable_log_events s :
  reachable s ->
  entryIds s = recorded_ids (events s) /\
  (forall i, is_Some (debtEntries s !! i) -> i ∈ entryIds s).
Proof.
  revert s. apply reachable_commits_ind.
  - split; [done|]. intros i [e He]. simpl in He. by rewrite lookup_empty in He.
  - intros s c s' _ [Hlog Hdom] Hc.
    destruct Hc as [s i cr d a pf t amount _ _ _ _|s i a pf v Hcr _ _ _|s q _];
      simpl; unfold recorded_ids in *; rewrite flat_map_app; simpl;
      rewrite ?app_nil_r.
    + split; [by rewrite Hlog|].
      intros j Hj. apply elem_of_app.
      destruct (decide (i = j)) as [->|Hne]; [right; by left|].
      left. apply Hdom. by rewrite lookup_insert_ne in Hj.
    + split; [done|].
      intros j Hj. destruct (decide (i = j)) as [->|Hne].
      * apply Hdom. unfold entry_at in Hcr.
        destruct (debtEntries s !! j); [done|]. by simpl in Hcr.
      * apply Hdom. by rewrite lookup_insert_ne in Hj.
    + done.
Qed.

Lemma reachable_parties_registered s i :
  reachable s -> i ∈ entryIds s ->
  _participantExists (creditor (entry_at s i)) s = true /\
  _participantExists (debtor (entry_at s i)) s = true.
Proof.
  intros Hs. revert i. revert s Hs. apply (reachable_commits_ind
    (fun s => forall i, i ∈ entryIds s ->
       _participantExists (creditor (entry_at s i)) s = true /\
       _participantExists (debtor (entry_at s i)) s = true)).
  - intros i Hi. inversion Hi.
  - intros s c s' _ IH Hc i Hi.
    pose proof (participantExists_commits s c s') as Hmono.
    destruct Hc as [s j cr d a pf t amount H1 H2 H3 H4|s j a pf v H1 H2 H3 H4|s q Hq].
    + rewrite entry_at_record. case_decide as Hij.
      * simpl. unfold _participantExists; simpl.
        split; [apply registered_exists_mono|]; apply registered_exists_self.
      * simpl in Hi. apply elem_of_app in Hi as [Hi|Hi];
          [|apply list_elem_of_singleton in Hi; congruence].
        destruct (IH i Hi) as [Hc Hd].
        split; apply Hmono; auto; by constructor.
    + rewrite entry_at_verify. simpl in Hi.
      case_decide as Hij; simpl; [subst i|]; by apply IH.
    + by apply IH.
Qed.

(** Logged ciphertext handles are initialised and carry both grants. *)
Lemma reachable_handles_granted s i :
  reachable s -> i ∈ entryIds s ->
  encryptedAmount (entry_at s i) <> 0%Z /\
  AllowThis (encryptedAmount (entry_at s i)) ∈ acl s /\
  PubliclyDecryptable (encryptedAmount (entry_at s i)) ∈ acl s.
Proof.
  intros Hs. revert i. revert s Hs. apply (reachable_commits_ind
    (fun s => forall i, i ∈ entryIds s ->
       encryptedAmount (entry_at s i) <> 0%Z /\
       AllowThis (encryptedAmount (entry_at s i)) ∈ acl s /\
       PubliclyDecryptable (encryptedAmount (entry_at s i)) ∈ acl s)).
  - intros i Hi. inversion Hi.
  - intros s c s' _ IH Hc i Hi.
    destruct Hc as [s j cr d a pf t amount H1 H2 H3 H4|s j a pf v H1 H2 H3 H4|s q Hq].
    + rewrite entry_at_record. simpl. rewrite !elem_of_app, !elem_of_cons.
      case_decide as Hij; simpl; [tauto|].
      simpl in Hi. apply elem_of_app in Hi as [Hi|Hi];
        [|apply list_elem_of_singleton in Hi; congruence].
      destruct (IH i Hi) as (? & ? & ?). tauto.
    + rewrite entry_at_verify. simpl in Hi.
      case_decide as Hij; simpl; [subst i|]; by apply IH.
    + simpl. rewrite !elem_of_app.
      destruct (IH i Hi) as (? & ? & ?). tauto.
Qed.

Lemma last_balance_snoc p evs ev :
  last_balance p (evs ++ [ev]) =
  match ev with
  | NetBalanceUpdated q b => if decide (q = p) then Some b else last_balance p evs
  | _ => last_balance p evs
  end.
Proof. unfold last_balance. rewrite fold_left_app. by destruct ev. Qed.

(** The balance table against the event log and the grants. *)
Lemma reachable_balances s p :
  reachable s ->
  netBalances s !! p = last_balance p (events s) /\
  (forall b, netBalances s !! p = Some b ->
     _participantExists p s = true /\
     AllowThis b ∈ acl s /\ PubliclyDecryptable b ∈ acl s).
Proof.
  intros Hs. revert s Hs. apply reachable_commits_ind.
  - split; [done|]. intros b Hb. simpl in Hb. by rewrite lookup_empty in Hb.
  - intros s c s' _ [Hlast Hgr] Hc.
    pose proof (participantExists_commits s c s' p Hc) as Hmono.
    destruct Hc as [s j cr d a pf t amount H1 H2 H3 H4|s j a pf v H1 H2 H3 H4|s q Hq];
      simpl; rewrite last_balance_snoc.
    + split; [done|]. intros b Hb. destruct (Hgr b Hb) as (? & ? & ?).
      rewrite !elem_of_app. auto.
    + split; [done|]. intros b Hb. destruct (Hgr b Hb) as (? & ? & ?). auto.
    + rewrite lookup_insert. destruct (decide (q = p)) as [->|Hne]; simpl.
      * split; [done|]. intros b [= <-]. rewrite !elem_of_app, !elem_of_cons.
        split; [by apply Hmono|split; [right; by left|right; right; by left]].
      * split; [done|]. intros b Hb. destruct (Hgr b Hb) as (? & ? & ?).
        rewrite !elem_of_app. auto.
Qed.

Lemma be_value_nonneg (bs : list byte) : (0 <= be_value bs)%Z.
Proof.
  unfold be_value.
  assert (Hacc : forall acc, (0 <= acc)%Z ->
            (0 <= fold_left (fun acc b => acc * 256 + Z.of_N (Byte.to_N b)) bs acc)%Z).
  { induction bs as [|b bs IH]; intros acc Hacc; simpl; [done|]. apply IH. lia. }
  by apply Hacc.
Qed.

Lemma abi_decode_uint32_range a v :
  abi_decode_uint32 a = Some v -> (0 <= v < 2 ^ 32)%Z.
Proof.
  unfold abi_decode_uint32.
  destruct (length a <? 32)%nat; [discriminate|].
  destruct (be_value (take 32 a) <? 2 ^ 32)%Z eqn:Hlt; [|discriminate].
  intros [= <-]. apply Z.ltb_lt in Hlt.
  split; [apply be_value_nonneg|done].
Qed.

(** Decrypted amounts: zero until verification, a 32-bit value after, and
    the one the entry's DecryptionVerified event carries. *)
Lemma reachable_amounts s i :
  reachable s ->
  (isVerified (entry_at s i) = false -> decryptedAmount (entry_at s i) = 0%Z) /\
  (0 <= decryptedAmount (entry_at s i) < 2 ^ 32)%Z /\
  verified_amounts i (events s) =
    (if isVerified (entry_at s i) then [decryptedAmount (entry_at s i)] else []).
Proof.
  intros Hs. revert i. revert s Hs. apply (reachable_commits_ind
    (fun s => forall i,
       (isVerified (entry_at s i) = false -> decryptedAmount (entry_at s i) = 0%Z) /\
       (0 <= decryptedAmount (entry_at s i) < 2 ^ 32)%Z /\
       verified_amounts i (events s) =
         (if isVerified (entry_at s i) then [decryptedAmount (entry_at s i)] else []))).
  - intros i. repeat split; done.
  - intros s c s' Hs IH Hc i. destruct (IH i) as (Hz & Hr & Hev).
    pose proof (reachable_invariant s Hs) as Hinv.
    destruct Hc as [s j cr d a pf t amount H1 H2 H3 H4|s j a pf v H1 H2 H3 H4|s q Hq];
      simpl; unfold verified_amounts in *; rewrite flat_map_app; simpl;
      rewrite ?app_nil_r.
    + rewrite entry_at_record. case_decide as Hij; simpl; [subst j|done].
      repeat split; try done.
      destruct (isVerified (entry_at s i)) eqn:Hv; [|done].
      by destruct (inv_verified s Hinv i Hv).
    + rewrite entry_at_verify. case_decide as Hij; simpl.
      * subst j. rewrite H2 in Hev. rewrite Hev. simpl.
        repeat split; [discriminate|by eapply abi_decode_uint32_range..].
      * by rewrite app_nil_r.
    + done.
Qed.

(** Membership in the registry, as the loop decides it: by hash. *)
Lemma participantExists_from_hash ids p :
  participantExists_from ids p = true <-> keccak256 p ∈ map keccak256 ids.
Proof.
  induction ids as [|x ids IH]; simpl.
  - split; [discriminate|]. intros H. inversion H.
  - unfold compareStrings at 1. unfold abi_encodePacked. rewrite elem_of_cons.
    destruct (keccak256 x =? keccak256 p)%Z eqn:Heq.
    + apply Z.eqb_eq in Heq. split; auto.
    + apply Z.eqb_neq in Heq. rewrite IH. split; [tauto|].
      intros [Hp|Hp]; [congruence|done].
Qed.

Lemma registered_hash_NoDup ids p :
  NoDup (map keccak256 ids) -> NoDup (map keccak256 (registered ids p)).
Proof.
  intros Hnd. unfold registered.
  destruct (participantExists_from ids p) eqn:Hex; [done|].
  rewrite map_app. simpl. apply NoDup_app. repeat split; [done| |].
  - intros h Hh Hp. apply list_elem_of_singleton in Hp. subst h.
    apply participantExists_from_hash in Hh. congruence.
  - apply NoDup_singleton.
Qed.

Lemma reachable_hash_NoDup s :
  reachable s -> NoDup (map keccak256 (participantIds s)).
Proof.
  revert s. apply reachable_commits_ind; [constructor|].
  intros s c s' _ IH Hc.
  destruct Hc as [s j cr d a pf t amount _ _ _ _|s j a pf v _ _ _ _|s q _];
    simpl; try done.
  by do 2 apply registered_hash_NoDup.
Qed.

(** Where every recorded creditor is non-empty, ids are logged once. *)
Lemma reachable_named_unique s :
  reachable s ->
  (forall i c d, DebtRecorded i c d ∈ events s -> c <> "") ->
  NoDup (entryIds s) /\ forall i, i ∈ entryIds s -> creditor (entry_at s i) <> "".
Proof.
  revert s. apply (reachable_commits_ind
    (fun s => (forall i c d, DebtRecorded i c d ∈ events s -> c <> "") ->
              NoDup (entryIds s) /\
              forall i, i ∈ entryIds s -> creditor (entry_at s i) <> "")).
  - intros _. split; [constructor|]. intros i Hi. inversion Hi.
  - intros s c s' _ IH Hc Hev.
    assert (Hev0 : forall i c d, DebtRecorded i c d ∈ events s -> c <> "").
    { intros i0 c0 d0 Hin. apply (Hev i0 c0 d0).
      destruct Hc; simpl; apply elem_of_app; by left. }
    destruct (IH Hev0) as [Hnd Hne].
    destruct Hc as [s j cr d a pf t amount H1 _ _ _|s j a pf v _ _ _ _|s q _]; simpl.
    + assert (Hcr : cr <> "").
      { apply (Hev j cr d). simpl. apply elem_of_app. right. by left. }
      split.
      * apply NoDup_app. repeat split; [done| |apply NoDup_singleton].
        intros i Hi Hj. apply list_elem_of_singleton in Hj. subst i.
        by apply (Hne j).
      * intros i Hi. rewrite entry_at_record. case_decide; [done|].
        apply elem_of_app in Hi as [Hi|Hi]; [by apply Hne|].
        apply list_elem_of_singleton in Hi. congruence.
    + split; [done|]. intros i Hi. rewrite entry_at_verify.
      case_decide; simpl; [subst j|]; by apply Hne.
    + done.
Qed.

Lemma named_entry_frozen_run s calls i :
  creditor (entry_at s i) <> "" ->
  let e := entry_at s i in
  let e' := entry_at (run s calls) i in
  creditor e' = creditor e /\ debtor e' = debtor e /\
  encryptedAmount e' = encryptedAmount e /\ timestamp e' = timestamp e.
Proof.
  unfold run. revert s.
  induction calls as [|c calls IH]; intros s Hc; simpl; [done|].
  destruct (named_entry_frozen s c i Hc) as (H1 & H2 & H3 & H4).
  destruct (IH (transact s c)) as (H1' & H2' & H3' & H4'); [congruence|].
  simpl in *. repeat split; congruence.
Qed.

Lemma events_grow s c : events s `prefix_of` events (transact s c).
Proof.
  destruct (transact_cases s c) as [->|Hstep]; [done|].
  destruct Hstep; simpl; by apply prefix_app_r.
Qed.

(** What the aggregation of [p] would compute reads the entry table and
    the entry log, which only [recordDebt] writes in a way that matters:
    a verification rewrites neither party nor handle. *)
Lemma net_loop_verify p i v s :
  net_loop p (verifyDecryption_post i v s) = net_loop p s.
Proof.
  unfold net_loop. simpl.
  generalize (FHE_zero, true).
  induction (entryIds s) as [|j l IH]; intros x; simpl; [done|].
  rewrite IH. f_equal. rewrite entry_at_verify.
  case_decide; [subst j|done]. destruct x as [b f]. reflexivity.
Qed.

(** ** Further properties of the ledger *)

(** X1. When [computeNetBalance p] returns, [getNetBalance p] on the
    resulting storage returns the handle the call computed, which is the
    one its NetBalanceUpdated event carries, and the stored balance of
    every other participant is the one it was. *)
Theorem getNetBalance_after_compute s p s1 :
  computeNetBalance p s = (Ok tt, s1) ->
  getNetBalance p s1 = Ok (fst (net_loop p s)) /\
  last (events s1) = Some (NetBalanceUpdated p (fst (net_loop p s))) /\
  forall q, q <> p -> netBalances s1 !! q = netBalances s !! q.
Proof.
  intros Hok. apply (exec_ok_commits (CallComputeNetBalance p)) in Hok.
  inversion Hok as [| |s0 p0 Hex]; subst.
  split; [|split].
  - unfold getNetBalance, balance_at.
    change (_participantExists p (computeNetBalance_post p (fst (net_loop p s)) s))
      with (_participantExists p s).
    rewrite Hex. simpl. by rewrite lookup_insert_eq.
  - simpl. by rewrite last_snoc.
  - intros q Hq. simpl. by rewrite lookup_insert_ne.
Qed.

(** X2. In a reachable ledger, [getNetBalance] of a registered participant
    never reverts: it returns the handle of the participant's latest
    NetBalanceUpdated event, whatever was recorded since, and the zero
    handle when the participant was never aggregated. *)
Theorem getNetBalance_follows_events s p :
  reachable s ->
  _participantExists p s = true ->
  netBalances s !! p = last_balance p (events s) /\
  getNetBalance p s = Ok (default 0%Z (last_balance p (events s))).
Proof.
  intros Hs Hex. destruct (reachable_balances s p Hs) as [Hlast _].
  split; [done|].
  unfold getNetBalance. rewrite Hex. unfold balance_at.
  do 2 f_equal. exact Hlast.
Qed.

(** X3. In a reachable ledger, every stored balance belongs to a
    registered participant and its handle has been granted to the contract
    and made publicly decryptable. *)
Theorem stored_balances_are_granted s p b :
  reachable s ->
  netBalances s !! p = Some b ->
  _participantExists p s = true /\
  AllowThis b ∈ acl s /\ PubliclyDecryptable b ∈ acl s.
Proof.
  intros Hs Hb. destruct (reachable_balances s p Hs) as [_ Hgr]. by apply Hgr.
Qed.

(** X4. In a reachable ledger, the ciphertext handle of every logged entry
    is initialised, granted to the contract and publicly decryptable. *)
Theorem logged_handles_are_granted s i :
  reachable s ->
  i ∈ getAllEntryIds s ->
  FHE_isInitialized (encryptedAmount (entry_at s i)) = true /\
  AllowThis (encryptedAmount (entry_at s i)) ∈ acl s /\
  PubliclyDecryptable (encryptedAmount (entry_at s i)) ∈ acl s.
Proof.
  intros Hs Hi. destruct (reachable_handles_granted s i Hs Hi) as (Hne & Ha & Hp).
  split; [|done]. unfold FHE_isInitialized.
  apply negb_true_iff. by apply Z.eqb_neq.
Qed.

(** X5. In a reachable ledger, [getAllEntryIds] is the sequence of ids of
    the DebtRecorded events, in order, and every id for which
    [getDebtEntry] returns is in it. *)
Theorem entry_log_follows_events s :
  reachable s ->
  getAllEntryIds s = recorded_ids (events s) /\
  forall i r, getDebtEntry i s = Ok r -> i ∈ getAllEntryIds s.
Proof.
  intros Hs. destruct (reachable_log_events s Hs) as [Hlog Hdom].
  split; [done|]. intros i r. unfold getDebtEntry, getAllEntryIds.
  destruct (0 <? String.length (creditor (entry_at s i)))%nat eqn:Hlen; [|discriminate].
  intros _. apply Hdom. unfold entry_at in Hlen.
  destruct (debtEntries s !! i); [done|discriminate].
Qed.

(** X6. In a reachable ledger, the two parties of every logged entry are
    different strings and both are registered: [computeNetBalance] and
    [getNetBalance] on either of them do not revert. *)
Theorem logged_parties_distinct_registered s i :
  reachable s ->
  i ∈ getAllEntryIds s ->
  let e := entry_at s i in
  creditor e <> debtor e /\
  fst (computeNetBalance (creditor e) s) = Ok tt /\
  fst (computeNetBalance (debtor e) s) = Ok tt /\
  getNetBalance (creditor e) s = Ok (balance_at s (creditor e)) /\
  getNetBalance (debtor e) s = Ok (balance_at s (debtor e)).
Proof.
  intros Hs Hi. simpl.
  destruct (reachable_parties_registered s i Hs Hi) as [Hc Hd].
  split.
  - apply compareStrings_false_ne.
    by apply (inv_distinct s (reachable_invariant s Hs)).
  - rewrite !computeNetBalance_unfold. unfold getNetBalance.
    by rewrite Hc, Hd.
Qed.

(** X7. In a reachable ledger, the decrypted amount of an entry is zero
    as long as the entry is not verified, and always fits 32 bits. *)
Theorem decrypted_amount_range s i :
  reachable s ->
  (isVerified (entry_at s i) = false -> decryptedAmount (entry_at s i) = 0%Z) /\
  (0 <= decryptedAmount (entry_at s i) < 2 ^ 32)%Z.
Proof.
  intros Hs. destruct (reachable_amounts s i Hs) as (Hz & Hr & _). done.
Qed.

(** X8. In a reachable ledger, an entry id has a DecryptionVerified event
    exactly when the entry is verified, it has only one, and that event
    carries the stored decrypted amount. *)
Theorem one_verification_event s i :
  reachable s ->
  verified_amounts i (events s) =
  if isVerified (entry_at s i) then [decryptedAmount (entry_at s i)] else [].
Proof.
  intros Hs. by destruct (reachable_amounts s i Hs) as (_ & _ & Hev).
Qed.

(** X9. In a reachable ledger, the registered participants have pairwise
    different hashes, hence are pairwise different strings, whether or not
    the hash has collisions. *)
Theorem participants_hash_distinct s :
  reachable s ->
  NoDup (map keccak256 (getAllParticipantIds s)) /\
  NoDup (getAllParticipantIds s).
Proof.
  intros Hs. pose proof (reachable_hash_NoDup s Hs) as Hnd.
  split; [done|]. by apply (NoDup_fmap_1 keccak256).
Qed.

(** X10. In a reachable ledger none of whose DebtRecorded events has an
    empty creditor, [getAllEntryIds] has no duplicates and [getDebtEntry]
    returns for every id in it. *)
Theorem named_ledger_ids_unique s :
  reachable s ->
  (forall i c d, DebtRecorded i c d ∈ events s -> c <> "") ->
  NoDup (getAllEntryIds s) /\
  forall i, i ∈ getAllEntryIds s ->
    getDebtEntry i s =
    Ok (creditor (entry_at s i), debtor (entry_at s i), timestamp (entry_at s i),
        isVerified (entry_at s i), decryptedAmount (entry_at s i)).
Proof.
  intros Hs Hev. destruct (reachable_named_unique s Hs Hev) as [Hnd Hne].
  split; [done|]. intros i Hi. unfold getDebtEntry.
  pose proof (Hne i Hi) as Hc. apply length_pos_nonempty in Hc. by rewrite Hc.
Qed.

(** X11. Whatever the storage, an entry whose stored creditor is
    non-empty keeps its creditor, debtor, ciphertext handle and timestamp
    through every sequence of calls, and every [recordDebt] on its id is
    refused with DuplicateEntry. *)
Theorem named_entry_is_permanent s i calls :
  creditor (entry_at s i) <> "" ->
  let e := entry_at s i in
  let s' := run s calls in
  creditor (entry_at s' i) = creditor e /\
  debtor (entry_at s' i) = debtor e /\
  encryptedAmount (entry_at s' i) = encryptedAmount e /\
  timestamp (entry_at s' i) = timestamp e /\
  forall c d a p t, recordDebt i c d a p t s' = (Revert DuplicateEntry, s').
Proof.
  intros Hc. simpl.
  destruct (named_entry_frozen_run s calls i Hc) as (H1 & H2 & H3 & H4).
  simpl in *. repeat split; try done.
  intros c d a p t. apply recordDebt_duplicate. congruence.
Qed.

(** X12. Whatever the storage and the calls, the entry log, the registry
    and the event log after the calls extend those before: nothing is
    removed or reordered. *)
Theorem sequences_only_grow s calls :
  getAllEntryIds s `prefix_of` getAllEntryIds (run s calls) /\
  getAllParticipantIds s `prefix_of` getAllParticipantIds (run s calls) /\
  events s `prefix_of` events (run s calls).
Proof.
  unfold run, getAllEntryIds, getAllParticipantIds. revert s.
  induction calls as [|c calls IH]; intros s; simpl; [done|].
  destruct (sequences_grow s c) as [He Hp].
  pose proof (events_grow s c) as Hv.
  destruct (IH (transact s c)) as (He' & Hp' & Hv').
  repeat split; etrans; eauto.
Qed.

(** X13. When [recordDebt] returns for a non-empty creditor, [getDebtEntry]
    on its id returns the creditor, the debtor, the block timestamp, false
    and zero, and [getDebtEntry] on every other id returns what it did. *)
Theorem getDebtEntry_after_recordDebt s i c d a p t s1 :
  recordDebt i c d a p t s = (Ok tt, s1) ->
  c <> "" ->
  getDebtEntry i s1 = Ok (c, d, t, false, 0%Z) /\
  forall j, j <> i -> getDebtEntry j s1 = getDebtEntry j s.
Proof.
  intros Hok Hc. apply (exec_ok_commits (CallRecordDebt i c d a p t)) in Hok.
  inversion Hok; subst. split; [by apply getDebtEntry_after_record|].
  intros j Hj. unfold getDebtEntry. rewrite entry_at_record.
  by rewrite decide_False by done.
Qed.

(** X14. When [verifyDecryption] returns, the claimed cleartext decodes to
    a 32-bit value and [getDebtEntry] on the id returns the entry's
    creditor, debtor and timestamp as they were, with true and that value;
    the ciphertext handle of the entry and every other entry are as they
    were. *)
Theorem getDebtEntry_after_verifyDecryption s i a p s1 :
  verifyDecryption i a p s = (Ok tt, s1) ->
  exists v,
    abi_decode_uint32 a = Some v /\ (0 <= v < 2 ^ 32)%Z /\
    getDebtEntry i s1 =
      Ok (creditor (entry_at s i), debtor (entry_at s i), timestamp (entry_at s i),
          true, v) /\
    encryptedAmount (entry_at s1 i) = encryptedAmount (entry_at s i) /\
    forall j, j <> i -> entry_at s1 j = entry_at s j.
Proof.
  intros Hok. apply (exec_ok_commits (CallVerifyDecryption i a p)) in Hok.
  inversion Hok as [|s0 i0 a0 p0 v Hc Hver Hsig Hdec|]; subst.
  exists v. split; [done|]. split; [by eapply abi_decode_uint32_range|].
  split; [|split].
  - unfold getDebtEntry. rewrite entry_at_verify, decide_True by done. simpl.
    apply length_pos_nonempty in Hc. by rewrite Hc.
  - by rewrite entry_at_verify, decide_True.
  - intros j Hj. by rewrite entry_at_verify, decide_False.
Qed.

(** X15. Whatever the storage, the handle [computeNetBalance p] would
    store changes through [recordDebt] only: committing a
    [verifyDecryption] or a [computeNetBalance], for any participant,
    leaves it the same. *)
Theorem aggregation_changes_by_recordDebt_only s c p :
  match c with
  | CallRecordDebt _ _ _ _ _ _ => True
  | _ => fst (net_loop p (transact s c)) = fst (net_loop p s)
  end.
Proof.
  destruct c as [i cr d a pf t|i a pf|q]; [done| |]; unfold transact.
  - destruct (exec (CallVerifyDecryption i a pf) s) as [[[]|e] s'] eqn:He; [|done].
    apply exec_ok_commits in He. inversion He; subst. by rewrite net_loop_verify.
  - destruct (exec (CallComputeNetBalance q) s) as [[[]|e] s'] eqn:He; [|done].
    apply exec_ok_commits in He. inversion He; subst. done.
Qed.

(** At the end of the loop either a contribution was met, or the balance
    is still the zero handle. *)
Lemma net_fold_contribution_zero p (l : list DebtEntry) :
  snd (fold_left (net_step p) l (FHE_zero, true)) = false \/
  (snd (fold_left (net_step p) l (FHE_zero, true)) = true /\
   fst (fold_left (net_step p) l (FHE_zero, true)) = FHE_zero).
Proof.
  assert (H : forall x, (snd x = true -> fst x = FHE_zero) ->
            snd (fold_left (net_step p) l x) = true ->
            fst (fold_left (net_step p) l x) = FHE_zero).
  { induction l as [|e l IH]; intros x Hx; simpl; [done|].
    apply IH. by apply net_step_first. }
  destruct (snd (fold_left (net_step p) l (FHE_zero, true))) eqn:Hs; [right|by left].
  split; [done|]. by apply H.
Qed.

(** ** What the aggregation computes, under a decryption function *)

Section Homomorphic.

(** A cleartext reading of handles for which the three operations of the
    library are arithmetic modulo 2^32. *)
Variable decrypt : euint32 -> Z.
Hypothesis decrypt_zero : decrypt FHE_zero = 0%Z.
Hypothesis decrypt_add : forall a b,
  decrypt (FHE_add a b) = ((decrypt a + decrypt b) mod 2 ^ 32)%Z.
Hypothesis decrypt_sub : forall a b,
  decrypt (FHE_sub a b) = ((decrypt a - decrypt b) mod 2 ^ 32)%Z.

(** The signed amount an entry contributes to a participant: its
    cleartext when the creditor compares equal to the participant, minus
    its cleartext when the debtor does. *)
Definition signed_amount (participantId : string) (e : DebtEntry) : Z :=
  ((if compareStrings (creditor e) participantId
    then decrypt (encryptedAmount e) else 0) -
   (if compareStrings (debtor e) participantId
    then decrypt (encryptedAmount e) else 0))%Z.

Definition signed_sum (participantId : string) (s : Ledger) : Z :=
  fold_right (fun e acc => (signed_amount participantId e + acc)%Z) 0%Z
             (map (entry_at s) (entryIds s)).

(** The cleartext of the loop variables: nothing before the first
    contribution. *)
Definition loop_value (x : euint32 * bool) : Z :=
  if snd x then 0%Z else decrypt (fst x).

Lemma net_step_value p x e :
  (loop_value (net_step p x e) mod 2 ^ 32 =
   (loop_value x + signed_amount p e) mod 2 ^ 32)%Z.
Proof.
  destruct x as [b f]. unfold net_step, signed_amount, loop_value.
  destruct (compareStrings (creditor e) p), (compareStrings (debtor e) p), f;
    simpl; rewrite ?decrypt_sub, ?decrypt_add, ?decrypt_zero, ?Z.mod_mod by lia;
    rewrite ?Zminus_mod_idemp_l; f_equal; lia.
Qed.

Lemma net_fold_value p (l : list DebtEntry) x :
  (loop_value (fold_left (net_step p) l x) mod 2 ^ 32 =
   (loop_value x + fold_right (fun e acc => signed_amount p e + acc) 0 l) mod 2 ^ 32)%Z.
Proof.
  revert x. induction l as [|e l IH]; intros x; simpl.
  - f_equal. lia.
  - rewrite IH, Zplus_mod, net_step_value, <- Zplus_mod. f_equal. lia.
Qed.

(** X16. Whatever the storage, under a decryption for which [FHE.add],
    [FHE.sub] and [FHE.zero] are addition, subtraction and zero modulo
    2^32, the handle [computeNetBalance p] stores decrypts, modulo 2^32, to
    the sum over the entry log of the amounts of the entries whose creditor
    compares equal to [p] minus those whose debtor does. *)
Theorem net_balance_is_signed_sum s p s1 :
  computeNetBalance p s = (Ok tt, s1) ->
  exists b,
    netBalances s1 !! p = Some b /\
    (decrypt b mod 2 ^ 32 = signed_sum p s mod 2 ^ 32)%Z.
Proof.
  intros Hok. apply (exec_ok_commits (CallComputeNetBalance p)) in Hok.
  inversion Hok as [| |s0 p0 Hex]; subst.
  exists (fst (net_loop p s)). split; [simpl; by rewrite lookup_insert_eq|].
  rewrite net_loop_map. unfold signed_sum.
  set (l := map (entry_at s) (entryIds s)).
  pose proof (net_fold_value p l (FHE_zero, true)) as Hval.
  change (loop_value (FHE_zero, true)) with 0%Z in Hval.
  rewrite Z.add_0_l in Hval. rewrite <- Hval. unfold loop_value.
  destruct (net_fold_contribution_zero p l) as [Hf|[Hf Hb]]; rewrite Hf; [done|].
  by rewrite Hb, decrypt_zero.
Qed.

End Homomorphic.

End DebtBook.

(** ** The contract over the transparent instance *)

Lemma plain_keccak256_pos a : (1 <= plain_keccak256 a)%Z.
Proof. induction a as [|c a IH]; simpl plain_keccak256; lia. Qed.

Lemma plain_keccak256_inj a b : plain_keccak256 a = plain_keccak256 b -> a = b.
Proof.
  revert b. induction a as [|c a IH]; intros [|c' b]; simpl plain_keccak256; intros H.
  - reflexivity.
  - pose proof (plain_keccak256_pos b). lia.
  - pose proof (plain_keccak256_pos a). lia.
  - pose proof (N_ascii_bounded c). pose proof (N_ascii_bounded c').
    assert (Hc : N_of_ascii c = N_of_ascii c') by lia.
    assert (Ha : plain_keccak256 a = plain_keccak256 b) by lia.
    f_equal; [|by apply IH].
    by rewrite <- (ascii_N_embedding c), <- (ascii_N_embedding c'), Hc.
Qed.

Module Plain.

Definition recordDebt := recordDebt plain_keccak256 plain_fromExternal.
Definition verifyDecryption := verifyDecryption plain_checkSignatures.
Definition computeNetBalance :=
  computeNetBalance plain_keccak256 plain_zero plain_add plain_sub.
Definition transact :=
  transact plain_keccak256 plain_fromExternal plain_zero plain_add plain_sub
           plain_checkSignatures.
Definition reachable :=
  reachable plain_keccak256 plain_fromExternal plain_zero plain_add plain_sub
            plain_checkSignatures.

(** alice lends to bob: entry e1 with handle 7. *)
Definition ledger1 : Ledger :=
  transact init (CallRecordDebt "e1" "alice" "bob" 7%Z [x01] 100%Z).

(** ... then bob lends to carol: entry e2 with handle 5. *)
Definition ledger2 : Ledger :=
  transact ledger1 (CallRecordDebt "e2" "bob" "carol" 5%Z [x01] 101%Z).

(** ... or the amount of e1 is revealed as 7. *)
Definition ledger1_verified : Ledger :=
  transact ledger1 (CallVerifyDecryption "e1" (word_of_byte x07) []).

(** An entry recorded with the empty string as creditor. *)
Definition ledger_anon : Ledger :=
  transact init (CallRecordDebt "e1" "" "bob" 7%Z [x01] 100%Z).

End Plain.

Lemma ledger1_reachable : Plain.reachable Plain.ledger1.
Proof. apply reachable_step, reachable_init. Qed.

Lemma ledger2_reachable : Plain.reachable Plain.ledger2.
Proof. apply reachable_step, ledger1_reachable. Qed.

Lemma ledger1_verified_reachable : Plain.reachable Plain.ledger1_verified.
Proof. apply reachable_step, ledger1_reachable. Qed.

(** C1 at work: the balance of bob after e1 (bob owes 7) and e2 (bob is
    owed 5) is [(zero - 7) + 5]. *)
Lemma computeNetBalance_folds_log_witness :
  let balance := plain_add (plain_sub plain_zero 7%Z) 5%Z in
  Plain.computeNetBalance "bob" Plain.ledger2 =
  (Ok tt,
   mkLedger (debtEntries Plain.ledger2) (<["bob" := balance]> (netBalances Plain.ledger2))
            (entryIds Plain.ledger2) (participantIds Plain.ledger2)
            (events Plain.ledger2 ++ [NetBalanceUpdated "bob" balance])
            (acl Plain.ledger2 ++ [AllowThis balance; PubliclyDecryptable balance])).
Proof.
  apply (proj2 (computeNetBalance_folds_log plain_keccak256 plain_fromExternal
                  plain_zero plain_add plain_sub plain_checkSignatures
                  plain_keccak256_inj Plain.ledger2 "bob" ledger2_reachable)).
  vm_compute. apply list_elem_of_In. simpl. tauto.
Defined.

(** C2 at work: once e1 is verified, neither a further recording on its
    id nor a further proof changes it. *)
Lemma verification_is_final_witness :
  let s' := run plain_keccak256 plain_fromExternal plain_zero plain_add plain_sub
                plain_checkSignatures Plain.ledger1_verified
                [CallRecordDebt "e1" "carol" "dave" 9%Z [x02] 200%Z;
                 CallVerifyDecryption "e1" (word_of_byte x09) []] in
  isVerified (entry_at s' "e1") = true /\
  decryptedAmount (entry_at s' "e1") = decryptedAmount (entry_at Plain.ledger1_verified "e1") /\
  forall a p, Plain.verifyDecryption "e1" a p s' = (Revert AlreadyVerified, s').
Proof.
  apply (proj2 (verification_is_final plain_keccak256 plain_fromExternal
                  plain_zero plain_add plain_sub plain_checkSignatures
                  Plain.ledger1_verified "e1" ledger1_verified_reachable)).
  reflexivity.
Defined.

(** C4 at work: a refused second recording on e1 stops with the storage
    it started from. *)
Lemma revert_writes_nothing_witness :
  snd (Plain.recordDebt "e1" "carol" "dave" 9%Z [x02] 200%Z Plain.ledger1) = Plain.ledger1.
Proof.
  apply (revert_writes_nothing plain_keccak256 plain_fromExternal
           plain_zero plain_add plain_sub plain_checkSignatures
           (CallRecordDebt "e1" "carol" "dave" 9%Z [x02] 200%Z)
           Plain.ledger1 DuplicateEntry).
  reflexivity.
Defined.

(** C6, the claim as first stated fails: with e1 already stored, recording
    e1 again with carol on both sides is refused as a duplicate, not as a
    self-debt. *)
Lemma recordDebt_same_party_duplicate_first :
  fst (Plain.recordDebt "e1" "carol" "carol" 9%Z [x02] 200%Z Plain.ledger1)
    = Revert DuplicateEntry /\
  fst (Plain.recordDebt "e1" "carol" "carol" 9%Z [x02] 200%Z Plain.ledger1)
    <> Revert SelfDebt.
Proof. split; [reflexivity|discriminate]. Qed.

(** C8 at work: the example of the specification. *)
Lemma participants_in_first_seen_order_witness :
  getAllParticipantIds Plain.ledger2 = ["alice"; "bob"; "carol"].
Proof.
  apply (proj2 (proj2 (participants_in_first_seen_order plain_keccak256
                  plain_fromExternal plain_zero plain_add plain_sub
                  plain_checkSignatures plain_keccak256_inj Plain.ledger2
                  ledger2_reachable))
           7%Z [x01] 100%Z 5%Z [x01] 101%Z Plain.ledger1 Plain.ledger2);
    reflexivity.
Defined.

(** C9 at work: aggregating bob twice in a row. *)
Lemma computeNetBalance_twice_witness :
  exists s2,
    Plain.computeNetBalance "bob" (snd (Plain.computeNetBalance "bob" Plain.ledger2))
      = (Ok tt, s2) /\
    netBalances s2 !! "bob"
      = netBalances (snd (Plain.computeNetBalance "bob" Plain.ledger2)) !! "bob" /\
    getNetBalance plain_keccak256 "bob" s2
      = getNetBalance plain_keccak256 "bob"
          (snd (Plain.computeNetBalance "bob" Plain.ledger2)) /\
    last (events s2) = last (events (snd (Plain.computeNetBalance "bob" Plain.ledger2))).
Proof.
  apply (computeNetBalance_twice plain_keccak256 plain_fromExternal
           plain_zero plain_add plain_sub plain_checkSignatures
           Plain.ledger2 "bob").
  reflexivity.
Defined.

(** C10 at work: on the empty ledger, e1 recorded with an empty creditor. *)
Lemma empty_creditor_entry_not_found_witness :
  exists s1,
    Plain.recordDebt "e1" "" "bob" 7%Z [x01] 100%Z init = (Ok tt, s1) /\
    entryIds s1 = entryIds init ++ ["e1"] /\
    getDebtEntry "e1" s1 = Revert NotFound /\
    (forall a' p', Plain.verifyDecryption "e1" a' p' s1 = (Revert NotFound, s1)) /\
    (forall c2 d2 a2 p2 t2,
       fst (Plain.recordDebt "e1" c2 d2 a2 p2 t2 s1) <> Revert DuplicateEntry) /\
    (forall c2 d2 a2 p2 t2 amount2,
       c2 <> d2 -> plain_fromExternal a2 p2 = Some amount2 -> amount2 <> 0%Z ->
       exists s2,
         Plain.recordDebt "e1" c2 d2 a2 p2 t2 s1 = (Ok tt, s2) /\
         entry_at s2 "e1" = mkDebtEntry c2 d2 amount2 t2 0%Z false /\
         entryIds s2 = entryIds init ++ ["e1"; "e1"]).
Proof.
  apply (empty_creditor_entry_not_found plain_keccak256 plain_fromExternal
           plain_zero plain_add plain_sub plain_checkSignatures
           plain_keccak256_inj init "e1" "bob" 7%Z [x01] 100%Z 7%Z);
    [reflexivity|discriminate|reflexivity|discriminate].
Defined.

(** ** The empty creditor

    The contract tests [bytes(creditor).length] where it means "this id
    is stored", and [recordDebt] does not refuse an empty creditor. The
    three facts below run the contract on such an entry. Entries stored
    with a non-empty creditor are covered by [recordDebt_duplicate],
    [named_entry_frozen], [sequences_grow] and [getDebtEntry_after_record]. *)

(** C3, the code against the claim: e1 is stored and logged, and a second
    [recordDebt] on e1 replaces its creditor, debtor, ciphertext handle and
    timestamp. *)
Theorem stored_entry_replaced :
  let s2 := Plain.transact Plain.ledger_anon
              (CallRecordDebt "e1" "alice" "carol" 9%Z [x02] 200%Z) in
  "e1" ∈ entryIds Plain.ledger_anon /\
  debtEntries Plain.ledger_anon !! "e1" = Some (mkDebtEntry "" "bob" 7%Z 100%Z 0%Z false) /\
  debtEntries s2 !! "e1" = Some (mkDebtEntry "alice" "carol" 9%Z 200%Z 0%Z false).
Proof.
  split; [|split].
  - apply list_elem_of_In. vm_compute. tauto.
  - reflexivity.
  - reflexivity.
Qed.

(** C5, the code against the claim: with e1 present in the ledger, a
    second [recordDebt] on e1 returns instead of reverting with
    DuplicateEntry, and the first entry is gone. *)
Theorem second_recordDebt_not_refused :
  getAllEntryIds Plain.ledger_anon = ["e1"] /\
  exists s2,
    Plain.recordDebt "e1" "alice" "carol" 9%Z [x02] 200%Z Plain.ledger_anon = (Ok tt, s2) /\
    entry_at s2 "e1" <> entry_at Plain.ledger_anon "e1" /\
    getAllEntryIds s2 = ["e1"; "e1"].
Proof.
  split; [reflexivity|].
  eexists. split; [reflexivity|].
  split; [discriminate|reflexivity].
Qed.

(** C7, the code against the claim: a [recordDebt] with an empty creditor
    returns, and the following [getDebtEntry] on its id reverts with
    NotFound instead of returning the entry. *)
Theorem getDebtEntry_misses_recorded_entry :
  Plain.recordDebt "e1" "" "bob" 7%Z [x01] 100%Z init = (Ok tt, Plain.ledger_anon) /\
  getDebtEntry "e1" Plain.ledger_anon = Revert NotFound.
Proof. split; reflexivity. Qed.

(** ** The further properties at work *)

(** bob aggregated after e1 and e2 ... *)
Definition ledger2_bob : Ledger :=
  Plain.transact Plain.ledger2 (CallComputeNetBalance "bob").

(** ... and e3 recorded after that: bob's stored balance is now stale. *)
Definition ledger2_stale : Ledger :=
  Plain.transact ledger2_bob (CallRecordDebt "e3" "bob" "alice" 4%Z [x01] 102%Z).

Lemma ledger2_bob_reachable : Plain.reachable ledger2_bob.
Proof. apply reachable_step, ledger2_reachable. Qed.

Lemma ledger2_stale_reachable : Plain.reachable ledger2_stale.
Proof. apply reachable_step, ledger2_bob_reachable. Qed.

Lemma e2_logged : "e2" ∈ getAllEntryIds Plain.ledger2.
Proof. apply list_elem_of_In. vm_compute. tauto. Qed.

Lemma getNetBalance_after_compute_witness :
  getNetBalance plain_keccak256 "bob" ledger2_bob
    = Ok (plain_add (plain_sub plain_zero 7%Z) 5%Z) /\
  last (events ledger2_bob)
    = Some (NetBalanceUpdated "bob" (plain_add (plain_sub plain_zero 7%Z) 5%Z)) /\
  forall q, q <> "bob" -> netBalances ledger2_bob !! q = netBalances Plain.ledger2 !! q.
Proof.
  apply (getNetBalance_after_compute plain_keccak256 plain_fromExternal
           plain_zero plain_add plain_sub plain_checkSignatures
           Plain.ledger2 "bob" ledger2_bob).
  reflexivity.
Defined.

Lemma getNetBalance_follows_events_witness :
  netBalances ledger2_stale !! "bob" = last_balance "bob" (events ledger2_stale) /\
  getNetBalance plain_keccak256 "bob" ledger2_stale
    = Ok (plain_add (plain_sub plain_zero 7%Z) 5%Z).
Proof.
  apply (getNetBalance_follows_events plain_keccak256 plain_fromExternal
           plain_zero plain_add plain_sub plain_checkSignatures
           ledger2_stale "bob" ledger2_stale_reachable).
  reflexivity.
Defined.

Lemma stored_balances_are_granted_witness :
  _participantExists plain_keccak256 "bob" ledger2_bob = true /\
  AllowThis (plain_add (plain_sub plain_zero 7%Z) 5%Z) ∈ acl ledger2_bob /\
  PubliclyDecryptable (plain_add (plain_sub plain_zero 7%Z) 5%Z) ∈ acl ledger2_bob.
Proof.
  apply (stored_balances_are_granted plain_keccak256 plain_fromExternal
           plain_zero plain_add plain_sub plain_checkSignatures
           ledger2_bob "bob" _ ledger2_bob_reachable).
  reflexivity.
Defined.

Lemma logged_handles_are_granted_witness :
  FHE_isInitialized (encryptedAmount (entry_at Plain.ledger2 "e2")) = true /\
  AllowThis (encryptedAmount (entry_at Plain.ledger2 "e2")) ∈ acl Plain.ledger2 /\
  PubliclyDecryptable (encryptedAmount (entry_at Plain.ledger2 "e2")) ∈ acl Plain.ledger2.
Proof.
  exact (logged_handles_are_granted plain_keccak256 plain_fromExternal
           plain_zero plain_add plain_sub plain_checkSignatures
           Plain.ledger2 "e2" ledger2_reachable e2_logged).
Defined.

Lemma entry_log_follows_events_witness :
  getAllEntryIds Plain.ledger2 = recorded_ids (events Plain.ledger2) /\
  forall i r, getDebtEntry i Plain.ledger2 = Ok r -> i ∈ getAllEntryIds Plain.ledger2.
Proof.
  exact (entry_log_follows_events plain_keccak256 plain_fromExternal
           plain_zero plain_add plain_sub plain_checkSignatures
           Plain.ledger2 ledger2_reachable).
Defined.

Lemma logged_parties_distinct_registered_witness :
  let e := entry_at Plain.ledger2 "e2" in
  creditor e <> debtor e /\
  fst (Plain.computeNetBalance (creditor e) Plain.ledger2) = Ok tt /\
  fst (Plain.computeNetBalance (debtor e) Plain.ledger2) = Ok tt /\
  getNetBalance plain_keccak256 (creditor e) Plain.ledger2
    = Ok (balance_at Plain.ledger2 (creditor e)) /\
  getNetBalance plain_keccak256 (debtor e) Plain.ledger2
    = Ok (balance_at Plain.ledger2 (debtor e)).
Proof.
  exact (logged_parties_distinct_registered plain_keccak256 plain_fromExternal
           plain_zero plain_add plain_sub plain_checkSignatures
           Plain.ledger2 "e2" ledger2_reachable e2_logged).
Defined.

Lemma decrypted_amount_range_witness :
  (isVerified (entry_at Plain.ledger1_verified "e1") = false ->
   decryptedAmount (entry_at Plain.ledger1_verified "e1") = 0%Z) /\
  (0 <= decryptedAmount (entry_at Plain.ledger1_verified "e1") < 2 ^ 32)%Z.
Proof.
  exact (decrypted_amount_range plain_keccak256 plain_fromExternal
           plain_zero plain_add plain_sub plain_checkSignatures
           Plain.ledger1_verified "e1" ledger1_verified_reachable).
Defined.

Lemma one_verification_event_witness :
  verified_amounts "e1" (events Plain.ledger1_verified) = [7%Z].
Proof.
  exact (one_verification_event plain_keccak256 plain_fromExternal
           plain_zero plain_add plain_sub plain_checkSignatures
           Plain.ledger1_verified "e1" ledger1_verified_reachable).
Defined.

Lemma participants_hash_distinct_witness :
  NoDup (map plain_keccak256 (getAllParticipantIds Plain.ledger2)) /\
  NoDup (getAllParticipantIds Plain.ledger2).
Proof.
  exact (participants_hash_distinct plain_keccak256 plain_fromExternal
           plain_zero plain_add plain_sub plain_checkSignatures
           Plain.ledger2 ledger2_reachable).
Defined.

Lemma ledger2_creditors_named i c d :
  DebtRecorded i c d ∈ events Plain.ledger2 -> c <> "".
Proof.
  intros Hin. apply list_elem_of_In in Hin. vm_compute in Hin.
  destruct Hin as [Hin|[Hin|[]]]; inversion Hin; discriminate.
Qed.

Lemma named_ledger_ids_unique_witness :
  NoDup (getAllEntryIds Plain.ledger2) /\
  forall i, i ∈ getAllEntryIds Plain.ledger2 ->
    getDebtEntry i Plain.ledger2 =
    Ok (creditor (entry_at Plain.ledger2 i), debtor (entry_at Plain.ledger2 i),
        timestamp (entry_at Plain.ledger2 i), isVerified (entry_at Plain.ledger2 i),
        decryptedAmount (entry_at Plain.ledger2 i)).
Proof.
  exact (named_ledger_ids_unique plain_keccak256 plain_fromExternal
           plain_zero plain_add plain_sub plain_checkSignatures
           Plain.ledger2 ledger2_reachable ledger2_creditors_named).
Defined.

Lemma named_entry_is_permanent_witness :
  let e := entry_at Plain.ledger1 "e1" in
  let s' := run plain_keccak256 plain_fromExternal plain_zero plain_add plain_sub
                plain_checkSignatures Plain.ledger1
                [CallRecordDebt "e1" "" "zed" 9%Z [x02] 200%Z;
                 CallVerifyDecryption "e1" (word_of_byte x07) [];
                 CallComputeNetBalance "alice"] in
  creditor (entry_at s' "e1") = creditor e /\
  debtor (entry_at s' "e1") = debtor e /\
  encryptedAmount (entry_at s' "e1") = encryptedAmount e /\
  timestamp (entry_at s' "e1") = timestamp e /\
  forall c d a p t, Plain.recordDebt "e1" c d a p t s' = (Revert DuplicateEntry, s').
Proof.
  apply (named_entry_is_permanent plain_keccak256 plain_fromExternal
           plain_zero plain_add plain_sub plain_checkSignatures
           Plain.ledger1 "e1").
  vm_compute. discriminate.
Defined.

Lemma getDebtEntry_after_recordDebt_witness :
  getDebtEntry "e1" Plain.ledger1 = Ok ("alice", "bob", 100%Z, false, 0%Z) /\
  forall j, j <> "e1" -> getDebtEntry j Plain.ledger1 = getDebtEntry j init.
Proof.
  apply (getDebtEntry_after_recordDebt plain_keccak256 plain_fromExternal
           plain_zero plain_add plain_sub plain_checkSignatures
           init "e1" "alice" "bob" 7%Z [x01] 100%Z Plain.ledger1);
    [reflexivity|discriminate].
Defined.

Lemma getDebtEntry_after_verifyDecryption_witness :
  exists v,
    abi_decode_uint32 (word_of_byte x07) = Some v /\ (0 <= v < 2 ^ 32)%Z /\
    getDebtEntry "e1" Plain.ledger1_verified =
      Ok (creditor (entry_at Plain.ledger1 "e1"), debtor (entry_at Plain.ledger1 "e1"),
          timestamp (entry_at Plain.ledger1 "e1"), true, v) /\
    encryptedAmount (entry_at Plain.ledger1_verified "e1")
      = encryptedAmount (entry_at Plain.ledger1 "e1") /\
    forall j, j <> "e1" -> entry_at Plain.ledger1_verified j = entry_at Plain.ledger1 j.
Proof.
  apply (getDebtEntry_after_verifyDecryption plain_keccak256 plain_fromExternal
           plain_zero plain_add plain_sub plain_checkSignatures
           Plain.ledger1 "e1" (word_of_byte x07) [] Plain.ledger1_verified).
  reflexivity.
Defined.

(** The cleartext of a handle of the transparent instance. *)
Definition plain_decrypt (h : euint32) : Z := (h mod 2 ^ 32)%Z.

Lemma plain_decrypt_add a b :
  plain_decrypt (plain_add a b) = ((plain_decrypt a + plain_decrypt b) mod 2 ^ 32)%Z.
Proof.
  unfold plain_decrypt, plain_add.
  rewrite <- Zplus_mod.
  rewrite (Zplus_mod (2 ^ 32)), Z_mod_same_full, Z.add_0_l.
  by rewrite !Zmod_mod.
Qed.

Lemma plain_decrypt_sub a b :
  plain_decrypt (plain_sub a b) = ((plain_decrypt a - plain_decrypt b) mod 2 ^ 32)%Z.
Proof.
  unfold plain_decrypt, plain_sub.
  rewrite <- Zminus_mod.
  rewrite (Zplus_mod (2 ^ 32)), Z_mod_same_full, Z.add_0_l.
  by rewrite !Zmod_mod.
Qed.

(** bob owes 7 (e1) and is owed 5 (e2): the stored balance decrypts to
    [-2] modulo 2^32. *)
Lemma net_balance_is_signed_sum_witness :
  exists b,
    netBalances ledger2_bob !! "bob" = Some b /\
    (plain_decrypt b mod 2 ^ 32 = (-2) mod 2 ^ 32)%Z.
Proof.
  apply (net_balance_is_signed_sum plain_keccak256 plain_fromExternal
           plain_zero plain_add plain_sub plain_checkSignatures
           plain_decrypt eq_refl plain_decrypt_add plain_decrypt_sub
           Plain.ledger2 "bob" ledger2_bob).
  reflexivity.
Defined.

(** * The web client (App.tsx)

    The parts of the client that compute: the description string that
    carries the two parties of a new record, its parsing when records are
    loaded, and the statistics over the loaded records. A JavaScript string
    is its sequence of UTF-16 code units. Numbers are doubles and
    [toLowerCase] follows the Unicode tables: both are taken as given. *)

Module App.

Definition jsstring := list N.

(** The code units of a string literal of the source. *)
Definition lit (s : string) : jsstring :=
  map N_of_ascii (String.list_ascii_of_string s).

(** [s.split(sep)] for a separator of one code unit: the segments between
    the occurrences of [sep], at least one. *)
Fixpoint split (sep : N) (s : jsstring) : list jsstring :=
  match s with
  | [] => [[]]
  | c :: rest =>
      if (c =? sep)%N then [] :: split sep rest
      else match split sep rest with
           | seg :: segs => (c :: seg) :: segs
           | [] => [[c]]
           end
  end.

Fixpoint starts_with (t s : jsstring) : bool :=
  match t, s with
  | [], _ => true
  | _ :: _, [] => false
  | a :: t', b :: s' => (a =? b)%N && starts_with t' s'
  end.

(** [s.includes(t)]: [t] occurs in [s]. *)
Fixpoint includes (s t : jsstring) : bool :=
  starts_with t s ||
  match s with
  | [] => false
  | _ :: s' => includes s' t
  end.

(** [x || "Unknown"] on an array element: the element when it is there and
    not the empty string. *)
Definition or_unknown (x : option jsstring) : jsstring :=
  match x with
  | Some (c :: rest) => c :: rest
  | _ => lit "Unknown"
  end.

(** createDebt: the description sent with a new record. *)
Definition description_of (debtor creditor : jsstring) : jsstring :=
  debtor ++ lit "|" ++ creditor.

(** loadData: the two parties read back from a description. *)
Definition debtor_of (description : jsstring) : jsstring :=
  or_unknown (split 124%N description !! 0%nat).

Definition creditor_of (description : jsstring) : jsstring :=
  or_unknown (split 124%N description !! 1%nat).

Inductive FilterType := FilterAll | FilterVerified | FilterPending.

Section Client.

Variable number : Type.
Variable zero : number.
Variable plus minus : number -> number -> number.
(** Truthiness of a number: neither 0 nor NaN. *)
Variable truthy : number -> bool.
Variable toLowerCase : jsstring -> jsstring.

Record DebtRecord := mkDebtRecord {
  id : number;
  name : jsstring;
  amount : jsstring;
  debtor : jsstring;
  creditor : jsstring;
  timestamp : number;
  creator : jsstring;
  publicValue1 : number;
  publicValue2 : number;
  isVerified : option bool;
  decryptedValue : option number;
  encryptedValueHandle : option jsstring
}.

Record DebtStats := mkDebtStats {
  totalDebts : nat;
  verifiedDebts : nat;
  netBalance : number;
  activeTransactions : nat
}.

(** Truthiness of the optional flag [isVerified]. *)
Definition verified (debt : DebtRecord) : bool :=
  match isVerified debt with
  | Some true => true
  | _ => false
  end.

Definition matchesSearch (searchTerm : jsstring) (debt : DebtRecord) : bool :=
  includes (toLowerCase (name debt)) (toLowerCase searchTerm) ||
  includes (toLowerCase (debtor debt)) (toLowerCase searchTerm) ||
  includes (toLowerCase (creditor debt)) (toLowerCase searchTerm).

Definition matchesFilter (filterType : FilterType) (debt : DebtRecord) : bool :=
  match filterType with
  | FilterAll => true
  | FilterVerified => verified debt
  | FilterPending => negb (verified debt)
  end.

Definition filteredDebts (debts : list DebtRecord) (searchTerm : jsstring)
    (filterType : FilterType) : list DebtRecord :=
  List.filter (fun debt => matchesSearch searchTerm debt && matchesFilter filterType debt)
              debts.

(** [debt.decryptedValue || 0]. *)
Definition amount_or_zero (debt : DebtRecord) : number :=
  match decryptedValue debt with
  | Some v => if truthy v then v else zero
  | None => zero
  end.

(** [debt.creator.toLowerCase() === address?.toLowerCase()]. *)
Definition created_by (address : option jsstring) (debt : DebtRecord) : bool :=
  match address with
  | Some a => bool_decide (toLowerCase (creator debt) = toLowerCase a)
  | None => false
  end.

Definition calculateStats (debts : list DebtRecord) (searchTerm : jsstring)
    (filterType : FilterType) (address : option jsstring) : DebtStats :=
  let shown := filteredDebts debts searchTerm filterType in
  let verifiedList := List.filter verified shown in
  let balance :=
    fold_left (fun sum debt =>
                 let amount := amount_or_zero debt in
                 if created_by address debt then minus sum amount else plus sum amount)
              verifiedList zero in
  mkDebtStats (length shown) (length verifiedList) balance
              (length (List.filter (fun debt => negb (verified debt)) shown)).

Lemma filter_partition_length {A} (f : A -> bool) (l : list A) :
  length (List.filter f l) + length (List.filter (fun x => negb (f x)) l) = length l.
Proof.
  induction l as [|x l IH]; simpl; [done|].
  destruct (f x); simpl; lia.
Qed.

Lemma filter_none {A} (f g : A -> bool) (l : list A) :
  (forall x, g x = true -> f x = false) ->
  List.filter f (List.filter g l) = [].
Proof.
  intros Hfg. induction l as [|x l IH]; simpl; [done|].
  destruct (g x) eqn:Hg; simpl; [|done].
  by rewrite (Hfg x Hg).
Qed.

Lemma includes_empty s : includes s [] = true.
Proof. by destruct s. Qed.

(** X19. Whatever the records, the search term, the filter and the
    address, the statistics count every shown record once: the total is
    the verified count plus the active count. *)
Theorem stats_partition debts searchTerm filterType address :
  let stats := calculateStats debts searchTerm filterType address in
  totalDebts stats = verifiedDebts stats + activeTransactions stats.
Proof.
  simpl. symmetry. apply filter_partition_length.
Qed.

(** X20. Under the "pending" filter the statistics show no verified
    record and a net balance of zero; under the "verified" filter they show
    no active record and every shown record counts as verified. *)
Theorem stats_follow_filter debts searchTerm address :
  (let stats := calculateStats debts searchTerm FilterPending address in
   verifiedDebts stats = 0 /\ netBalance stats = zero /\
   activeTransactions stats = totalDebts stats) /\
  (let stats := calculateStats debts searchTerm FilterVerified address in
   activeTransactions stats = 0 /\ verifiedDebts stats = totalDebts stats).
Proof.
  split; simpl.
  - assert (Hnone : List.filter verified (filteredDebts debts searchTerm FilterPending) = []).
    { apply filter_none. intros x Hx. apply andb_true_iff in Hx as [_ Hx].
      simpl in Hx. by apply negb_true_iff. }
    rewrite Hnone. simpl. repeat split; [done..|].
    pose proof (filter_partition_length verified
                  (filteredDebts debts searchTerm FilterPending)) as Hp.
    rewrite Hnone in Hp. simpl in Hp. lia.
  - assert (Hnone : List.filter (fun debt => negb (verified debt))
                      (filteredDebts debts searchTerm FilterVerified) = []).
    { apply filter_none. intros x Hx. apply andb_true_iff in Hx as [_ Hx].
      simpl in Hx. by rewrite Hx. }
    rewrite Hnone. simpl. split; [done|].
    pose proof (filter_partition_length verified
                  (filteredDebts debts searchTerm FilterVerified)) as Hp.
    rewrite Hnone in Hp. simpl in Hp. lia.
Qed.

(** X21. When [toLowerCase] maps the empty string to itself, an empty
    search term under the "all" filter shows every loaded record. *)
Theorem empty_search_shows_all debts address :
  toLowerCase [] = [] ->
  totalDebts (calculateStats debts [] FilterAll address) = length debts /\
  filteredDebts debts [] FilterAll = debts.
Proof.
  intros Hlow.
  assert (Hall : filteredDebts debts [] FilterAll = debts).
  { assert (Hm : forall d, matchesSearch [] d && matchesFilter FilterAll d = true).
    { intros d. unfold matchesSearch. by rewrite Hlow, includes_empty. }
    unfold filteredDebts. induction debts as [|d l IH]; simpl; [done|].
    rewrite Hm. f_equal. exact IH. }
  split; [|done]. simpl. by rewrite Hall.
Qed.

End Client.

Lemma split_segment sep (d rest : jsstring) :
  sep ∉ d -> split sep (d ++ sep :: rest) = d :: split sep rest.
Proof.
  induction d as [|c d IH]; intros Hd; simpl.
  - by rewrite N.eqb_refl.
  - apply not_elem_of_cons in Hd as [Hc Hd].
    rewrite (proj2 (N.eqb_neq c sep)) by congruence.
    by rewrite IH.
Qed.

Lemma split_whole sep (c : jsstring) : sep ∉ c -> split sep c = [c].
Proof.
  induction c as [|x c IH]; intros Hc; simpl; [done|].
  apply not_elem_of_cons in Hc as [Hx Hc].
  rewrite (proj2 (N.eqb_neq x sep)) by congruence.
  by rewrite IH.
Qed.

(** X17. A description built from a debtor and a creditor that are not
    empty and contain no bar is parsed back to that debtor and that
    creditor. *)
Theorem parties_round_trip (debtor creditor : jsstring) :
  debtor <> [] -> creditor <> [] ->
  124%N ∉ debtor -> 124%N ∉ creditor ->
  debtor_of (description_of debtor creditor) = debtor /\
  creditor_of (description_of debtor creditor) = creditor.
Proof.
  intros Hd Hc Hbd Hbc. unfold debtor_of, creditor_of, description_of.
  change (lit "|" ++ creditor) with (124%N :: creditor).
  rewrite (split_segment 124 debtor creditor Hbd), (split_whole 124 creditor Hbc).
  simpl. split; [by destruct debtor|by destruct creditor].
Qed.


End App.

(** ** The client at work *)

(** Lower case on the ASCII letters, enough for the examples. *)
Definition ascii_lower (s : App.jsstring) : App.jsstring :=
  map (fun c => if ((65 <=? c) && (c <=? 90))%N then (c + 32)%N else c) s.

Definition record_of (name debtor creditor : string) (isVerified : option bool)
    : App.DebtRecord Z :=
  App.mkDebtRecord Z 1%Z (App.lit name) (App.lit "debt-1") (App.lit debtor)
                   (App.lit creditor) 100%Z (App.lit "0xabc") 0%Z 0%Z
                   isVerified (Some 7%Z) None.

Definition some_debts : list (App.DebtRecord Z) :=
  [record_of "Rent" "bob" "alice" (Some true);
   record_of "Loan" "carol" "bob" None].

Lemma parties_round_trip_witness :
  App.debtor_of (App.description_of (App.lit "bob") (App.lit "alice")) = App.lit "bob" /\
  App.creditor_of (App.description_of (App.lit "bob") (App.lit "alice")) = App.lit "alice".
Proof.
  apply (App.parties_round_trip (App.lit "bob") (App.lit "alice"));
    [discriminate|discriminate| |];
    refine (proj1 (bool_decide_eq_false _) _); reflexivity.
Defined.


Lemma empty_search_shows_all_witness :
  App.totalDebts Z (App.calculateStats Z 0%Z Z.add Z.sub (fun v => negb (v =? 0)%Z)
                      ascii_lower some_debts [] App.FilterAll None) = 2 /\
  App.filteredDebts Z ascii_lower some_debts [] App.FilterAll = some_debts.
Proof.
  apply (App.empty_search_shows_all Z 0%Z Z.add Z.sub (fun v => negb (v =? 0)%Z)
           ascii_lower some_debts None).
  reflexivity.
Defined.
